(** * A verified model of the cube viewer (src/main.cpp)

    The program is a GLFW/OpenGL render loop around two global [float]
    camera angles.  The model keeps the code's shape:

    - [float] is IEEE-754 binary32, taken from the Standard Library's
      [SpecFloat] at precision 24 and maximal exponent 128, so that the
      additions [angleY += 0.5f] round exactly as the machine does;
    - [int key], [int action] are [Z], with the constants of the GLFW header;
    - the global variables and the backend's view of the program (the calls
      it receives, the window's close flag) form an explicit [World] that
      every function threads through;
    - the backend's answers ([glfwInit], [glfwCreateWindow], the events
      each [glfwPollEvents] dispatches) are an input of [main]. *)

From Stdlib Require Import String.
From Stdlib Require Import ZArith Lia List Bool Permutation QArith Reals Lra.
From Stdlib Require Import Floats.SpecFloat.
Import ListNotations.

Local Open Scope Z_scope.

(** ** binary32 *)

Module B32.

Definition prec : Z := 24.
Definition emax : Z := 128.

Definition float32 : Type := spec_float.

Definition add : float32 -> float32 -> float32 := SFadd prec emax.
Definition sub : float32 -> float32 -> float32 := SFsub prec emax.
Definition valid : float32 -> bool := valid_binary prec emax.

(** The literals of the source, as (sign, mantissa, exponent). *)
Definition zero : float32 := S754_zero false.                       (* 0.0f  *)
Definition half : float32 := S754_finite false 8388608 (-24).       (* 0.5f  *)
Definition one : float32 := S754_finite false 8388608 (-23).        (* 1.0f  *)
Definition three : float32 := S754_finite false 12582912 (-22).     (* 3.0f  *)
Definition five : float32 := S754_finite false 10485760 (-21).      (* 5.0f  *)
Definition tenth : float32 := S754_finite false 13421773 (-27).     (* 0.1f  *)
Definition c015 : float32 := S754_finite false 10066330 (-26).      (* 0.15f *)
Definition neg (x : float32) : float32 := SFopp x.

(** The value of a float as an integer number of units of 2^-149, the
    smallest positive binary32 number; [None] for infinities and NaN. *)
Definition ulps (x : float32) : option Z :=
  match x with
  | S754_zero _ => Some 0
  | S754_finite s m e => Some (cond_Zopp s (Zpos m * 2 ^ (e + 149)))
  | _ => None
  end.

(** The value as a rational number. *)
Definition B2Q (x : float32) : option Q :=
  match ulps x with
  | Some u => Some (Qmake u (2 ^ 149))
  | None => None
  end.

(** [x] holds exactly the rational [q]. *)
Definition holds (x : float32) (q : Q) : Prop :=
  match B2Q x with
  | Some v => Qeq v q
  | None => False
  end.

(** The float that holds [k / 2], for the [k] where there is one. *)
Definition of_half (k : Z) : float32 := binary_normalize prec emax k (-1) false.

(** The conversion of an [int]. *)
Definition of_Z (z : Z) : float32 := binary_normalize prec emax z 0 false.

Definition is_finite (x : float32) : bool :=
  match x with S754_finite _ _ _ => true | _ => false end.

(** A shift record with nothing lost to the right of the mantissa. *)
Definition exact_rec (m : Z) : shr_record := Build_shr_record m false false.

End B32.

Import B32.

(** ** The backend: GLFW and OpenGL

    The constants are those of [GLFW/glfw3.h] and [GL/gl.h]. *)

Module Glfw.
Definition GLFW_RELEASE : Z := 0.
Definition GLFW_PRESS : Z := 1.
Definition GLFW_REPEAT : Z := 2.
Definition GLFW_KEY_ESCAPE : Z := 256.
Definition GLFW_KEY_RIGHT : Z := 262.
Definition GLFW_KEY_LEFT : Z := 263.
Definition GLFW_KEY_DOWN : Z := 264.
Definition GLFW_KEY_UP : Z := 265.
End Glfw.

Module Gl.
Definition GL_TRUE : Z := 1.
Definition GL_QUADS : Z := 7.
Definition GL_DEPTH_BUFFER_BIT : Z := 256.     (* 0x00000100 *)
Definition GL_COLOR_BUFFER_BIT : Z := 16384.   (* 0x00004000 *)
Definition GL_DEPTH_TEST : Z := 2929.          (* 0x0B71 *)
Definition GL_MODELVIEW : Z := 5888.           (* 0x1700 *)
Definition GL_PROJECTION : Z := 5889.          (* 0x1701 *)
End Gl.

Import Glfw Gl.

(** The matrix handed to [glLoadMatrixf]: the program only ever loads the
    result of [glm::perspective], kept here by its arguments. *)
Inductive matrix_source : Type :=
  | perspective (fovy_degrees aspect zNear zFar : float32).

(** A call into the backend, with its arguments. *)
Inductive call : Type :=
  | glfwInit
  | glfwCreateWindow (width height : Z) (title : string)
  | glfwTerminate
  | glfwMakeContextCurrent
  | glfwSetKeyCallback
  | glfwWindowShouldClose
  | glfwSetWindowShouldClose (value : Z)
  | glfwSwapBuffers
  | glfwPollEvents
  | glEnable (cap : Z)
  | glMatrixMode (mode : Z)
  | glLoadIdentity
  | glLoadMatrixf (m : matrix_source)
  | glClear (mask : Z)
  | glClearColor (r g b a : float32)
  | glTranslatef (x y z : float32)
  | glRotatef (angle x y z : float32)
  | glBegin (mode : Z)
  | glEnd
  | glColor3f (r g b : float32)
  | glVertex3f (x y z : float32).

(** What [glfwPollEvents] finds in the queue: a key event, which goes to the
    installed key callback, or the user's request to close the window, which
    GLFW records in the window's close flag. *)
Inductive event : Type :=
  | KeyEvent (key scancode action mods : Z)
  | CloseRequest.

(** ** The program *)

Definition WIDTH : Z := 800.
Definition HEIGHT : Z := 600.

(** The two globals of the program, the close flag of its one window, and
    the calls made so far, the latest last. *)
Record World : Type := mkWorld {
  angleX : float32;
  angleY : float32;
  should_close : bool;
  calls : list call
}.

Definition world0 : World :=
  {| angleX := zero; angleY := zero; should_close := false; calls := [] |}.

Definition emit (c : call) (w : World) : World :=
  let '(mkWorld ax ay closing cs) := w in mkWorld ax ay closing (cs ++ [c]).

Definition emit_all (cs : list call) (w : World) : World :=
  fold_left (fun w c => emit c w) cs w.

Definition set_angleX (v : float32) (w : World) : World :=
  let '(mkWorld _ ay closing cs) := w in mkWorld v ay closing cs.

Definition set_angleY (v : float32) (w : World) : World :=
  let '(mkWorld ax _ closing cs) := w in mkWorld ax v closing cs.

Definition set_should_close (v : bool) (w : World) : World :=
  let '(mkWorld ax ay _ cs) := w in mkWorld ax ay v cs.

(** [glfwSetWindowShouldClose(window, value)]: the flag becomes [value]. *)
Definition do_glfwSetWindowShouldClose (value : Z) (w : World) : World :=
  set_should_close (negb (value =? 0)) (emit (glfwSetWindowShouldClose value) w).

Definition pressed_or_repeated (action : Z) : bool :=
  (action =? GLFW_PRESS) || (action =? GLFW_REPEAT).

Definition key_callback (key scancode action mode : Z) (w : World) : World :=
  let w :=
    if (key =? GLFW_KEY_ESCAPE) && (action =? GLFW_PRESS)
    then do_glfwSetWindowShouldClose GL_TRUE w else w in
  let w :=
    if (key =? GLFW_KEY_LEFT) && pressed_or_repeated action
    then set_angleY (sub (angleY w) five) w else w in
  let w :=
    if (key =? GLFW_KEY_RIGHT) && pressed_or_repeated action
    then set_angleY (add (angleY w) five) w else w in
  let w :=
    if (key =? GLFW_KEY_UP) && pressed_or_repeated action
    then set_angleX (sub (angleX w) five) w else w in
  let w :=
    if (key =? GLFW_KEY_DOWN) && pressed_or_repeated action
    then set_angleX (add (angleX w) five) w else w in
  w.

Definition drawCube_calls : list call :=
  [ glBegin GL_QUADS;
    (* Front face (red) *)
    glColor3f one zero zero;
    glVertex3f (neg half) (neg half) half;
    glVertex3f half (neg half) half;
    glVertex3f half half half;
    glVertex3f (neg half) half half;
    (* Back face (green) *)
    glColor3f zero one zero;
    glVertex3f (neg half) (neg half) (neg half);
    glVertex3f (neg half) half (neg half);
    glVertex3f half half (neg half);
    glVertex3f half (neg half) (neg half);
    (* Top face (blue) *)
    glColor3f zero zero one;
    glVertex3f (neg half) half (neg half);
    glVertex3f (neg half) half half;
    glVertex3f half half half;
    glVertex3f half half (neg half);
    (* Bottom face (yellow) *)
    glColor3f one one zero;
    glVertex3f (neg half) (neg half) (neg half);
    glVertex3f half (neg half) (neg half);
    glVertex3f half (neg half) half;
    glVertex3f (neg half) (neg half) half;
    (* Right face (magenta) *)
    glColor3f one zero one;
    glVertex3f half (neg half) (neg half);
    glVertex3f half half (neg half);
    glVertex3f half half half;
    glVertex3f half (neg half) half;
    (* Left face (cyan) *)
    glColor3f zero one one;
    glVertex3f (neg half) (neg half) (neg half);
    glVertex3f (neg half) (neg half) half;
    glVertex3f (neg half) half half;
    glVertex3f (neg half) half (neg half);
    glEnd ].

Definition drawCube (w : World) : World := emit_all drawCube_calls w.

(** The calls that rebuild the view transform from the two angles. *)
Definition view_calls (ax ay : float32) : list call :=
  [ glLoadIdentity;
    glTranslatef zero zero (neg three);
    glRotatef ax one zero zero;
    glRotatef ay zero one zero ].

(** One pass through the body of the main loop, up to the buffer swap. *)
Definition frame (w : World) : World :=
  let w := emit (glClear (Z.lor GL_COLOR_BUFFER_BIT GL_DEPTH_BUFFER_BIT)) w in
  let w := emit (glClearColor tenth tenth c015 one) w in
  let w := emit_all (view_calls (angleX w) (angleY w)) w in
  let w := drawCube w in
  let w := set_angleY (add (angleY w) half) w in
  emit glfwSwapBuffers w.

(** The calls of one frame. *)
Definition frame_calls (ax ay : float32) : list call :=
  [ glClear (Z.lor GL_COLOR_BUFFER_BIT GL_DEPTH_BUFFER_BIT);
    glClearColor tenth tenth c015 one ]
  ++ view_calls ax ay ++ drawCube_calls ++ [ glfwSwapBuffers ].

(** [glfwPollEvents]: every queued event is dispatched, in order. *)
Definition dispatch (w : World) (ev : event) : World :=
  match ev with
  | KeyEvent key scancode action mods => key_callback key scancode action mods w
  | CloseRequest => set_should_close true w
  end.

Definition do_glfwPollEvents (queue : list event) (w : World) : World :=
  fold_left dispatch queue (emit glfwPollEvents w).

(** How far a run gets on the recorded input: the loop was left, or the
    input ran out at the head of the loop with the window still open. *)
Inductive loop_result : Type :=
  | Left_loop (w : World)
  | Still_open (w : World).

Definition world_of (r : loop_result) : World :=
  match r with Left_loop w | Still_open w => w end.

(** One iteration of the main loop once its condition is evaluated: the
    frame, then the poll. *)
Definition iteration (queue : list event) (w : World) : World :=
  do_glfwPollEvents queue (frame (emit glfwWindowShouldClose w)).

(** The main loop, over the event queues that the successive calls of
    [glfwPollEvents] will find. *)
Fixpoint main_loop (polls : list (list event)) (w : World) : loop_result :=
  if should_close w then Left_loop (emit glfwWindowShouldClose w)
  else
    match polls with
    | [] => Still_open w
    | queue :: polls' => main_loop polls' (iteration queue w)
    end.

(** The answers of the backend over one run of the program. *)
Record Backend : Type := mkBackend {
  init_ok : bool;
  window_ok : bool;
  polls : list (list event)
}.

Definition projection : matrix_source :=
  let aspect := SFdiv prec emax (of_Z WIDTH) (of_Z HEIGHT) in
  perspective (of_Z 45) aspect tenth (of_Z 100).

(** The calls between the creation of the window and the main loop. *)
Definition setup (w : World) : World :=
  let w := emit glfwMakeContextCurrent w in
  let w := emit glfwSetKeyCallback w in
  let w := emit (glEnable GL_DEPTH_TEST) w in
  let w := emit (glMatrixMode GL_PROJECTION) w in
  let w := emit glLoadIdentity w in
  let w := emit (glLoadMatrixf projection) w in
  emit (glMatrixMode GL_MODELVIEW) w.

(** The result of [main]: its return value when it returns. *)
Inductive outcome : Type :=
  | Returned (status : Z) (w : World)
  | Running (w : World).

Definition main (b : Backend) : outcome :=
  let w := emit glfwInit world0 in
  if negb (init_ok b) then Returned (-1) w
  else
    let w := emit (glfwCreateWindow WIDTH HEIGHT "Simple 3D Game - Hello World") w in
    if negb (window_ok b) then
      let w := emit glfwTerminate w in
      Returned (-1) w
    else
      match main_loop (polls b) (setup w) with
      | Left_loop w => Returned 0 (emit glfwTerminate w)
      | Still_open w => Running w
      end.

(** ** What the backend makes of the calls

    The meaning of the OpenGL calls the program uses, after the OpenGL
    specification: the clear colour is state, [glClear] uses the clear
    colour current at the time of the call; between [glBegin(GL_QUADS)] and
    [glEnd] every four vertices make one quadrilateral, each vertex taking
    the colour current when it is specified; the matrix calls multiply the
    current matrix on the right. *)

Definition rgb : Type := (float32 * float32 * float32)%type.
Definition rgba : Type := (float32 * float32 * float32 * float32)%type.
Definition point : Type := (float32 * float32 * float32)%type.

(** The clear colour of a fresh context. *)
Definition initial_clear_color : rgba := (zero, zero, zero, zero).

(** The clear colour the program asks for. *)
Definition background : rgba := (tenth, tenth, c015, one).

Definition clears_color (mask : Z) : bool :=
  negb (Z.land mask GL_COLOR_BUFFER_BIT =? 0).

Definition clears_depth (mask : Z) : bool :=
  negb (Z.land mask GL_DEPTH_BUFFER_BIT =? 0).

(** The colours that the successive clears of the colour buffer fill it
    with, when [current] is the clear colour at the start. *)
Fixpoint clear_colors (current : rgba) (cs : list call) : list rgba :=
  match cs with
  | [] => []
  | glClearColor r g b a :: cs' => clear_colors (r, g, b, a) cs'
  | glClear mask :: cs' =>
      if clears_color mask then current :: clear_colors current cs'
      else clear_colors current cs'
  | _ :: cs' => clear_colors current cs'
  end.

Record vertex : Type := mkVertex { position : point; color : rgb }.

(** The colour of a fresh context is opaque white. *)
Definition initial_color : rgb := (one, one, one).

(** The quadrilaterals a sequence of calls draws.  [mode] is the primitive
    mode when inside [glBegin]/[glEnd], [pending] the vertices of the
    quadrilateral under construction. *)
Fixpoint assemble (current : rgb) (mode : option Z) (pending : list vertex)
    (cs : list call) : list (list vertex) :=
  match cs with
  | [] => []
  | glBegin m :: cs' => assemble current (Some m) [] cs'
  | glEnd :: cs' => assemble current None [] cs'
  | glColor3f r g b :: cs' => assemble (r, g, b) mode pending cs'
  | glVertex3f x y z :: cs' =>
      match mode with
      | Some m =>
          if m =? GL_QUADS then
            let pending' := pending ++ [mkVertex (x, y, z) current] in
            if (List.length pending' =? 4)%nat
            then pending' :: assemble current mode [] cs'
            else assemble current mode pending' cs'
          else assemble current mode pending cs'
      | None => assemble current mode pending cs'
      end
  | _ :: cs' => assemble current mode pending cs'
  end.

Definition quads (cs : list call) : list (list vertex) :=
  assemble initial_color None [] cs.

(** The faces of the cube, in the order of the source, and the plane of
    each: the camera looks down the negative z axis, so the front face is
    the one at z = +0.5. *)
Inductive face : Type := Front | Back | Top | Bottom | Right | Left.

Inductive axis : Type := AxisX | AxisY | AxisZ.

Definition coordinate (a : axis) (p : point) : float32 :=
  match a, p with
  | AxisX, (x, _, _) => x
  | AxisY, (_, y, _) => y
  | AxisZ, (_, _, z) => z
  end.

Definition face_plane (f : face) : axis * float32 :=
  match f with
  | Front => (AxisZ, half)
  | Back => (AxisZ, neg half)
  | Top => (AxisY, half)
  | Bottom => (AxisY, neg half)
  | Right => (AxisX, half)
  | Left => (AxisX, neg half)
  end.

(** Equality of two floats as bit patterns. *)
Definition float32_eqb (x y : float32) : bool :=
  match x, y with
  | S754_zero s, S754_zero s' => Bool.eqb s s'
  | S754_infinity s, S754_infinity s' => Bool.eqb s s'
  | S754_nan, S754_nan => true
  | S754_finite s m e, S754_finite s' m' e' =>
      Bool.eqb s s' && Pos.eqb m m' && Z.eqb e e'
  | _, _ => false
  end.

Definition rgb_eqb (c d : rgb) : bool :=
  let '(r, g, b) := c in
  let '(r', g', b') := d in
  float32_eqb r r' && float32_eqb g g' && float32_eqb b b'.

Definition on_plane (pl : axis * float32) (v : vertex) : bool :=
  float32_eqb (coordinate (fst pl) (position v)) (snd pl).

Definition on_face (f : face) (q : list vertex) : bool :=
  forallb (on_plane (face_plane f)) q.

(** A quadrilateral is flat-coloured by [c] when its vertices all carry [c]. *)
Definition flat (c : rgb) (q : list vertex) : bool :=
  forallb (fun v => rgb_eqb (color v) c) q.

Fixpoint pairwise_distinct (cs : list rgb) : bool :=
  match cs with
  | [] => true
  | c :: cs' => negb (existsb (rgb_eqb c) cs') && pairwise_distinct cs'
  end.

(** The faces in the order in which the source draws them. *)
Definition face_order : list face := [Front; Back; Top; Bottom; Right; Left].

(** The colour of a quadrilateral's first vertex. *)
Definition quad_color (q : list vertex) : rgb :=
  match q with
  | v :: _ => color v
  | [] => initial_color
  end.

(** Two lists agree pointwise under a test, and have the same length. *)
Fixpoint all2 {A B : Type} (f : A -> B -> bool) (xs : list A) (ys : list B) : bool :=
  match xs, ys with
  | [], [] => true
  | x :: xs', y :: ys' => f x y && all2 f xs' ys'
  | _, _ => false
  end.

Definition point_eqb (p q : point) : bool :=
  let '(x, y, z) := p in
  let '(x', y', z') := q in
  float32_eqb x x' && float32_eqb y y' && float32_eqb z z'.

Fixpoint distinct_points (ps : list point) : bool :=
  match ps with
  | [] => true
  | p :: ps' => negb (existsb (point_eqb p) ps') && distinct_points ps'
  end.

(** The calls that draw one flat-coloured quadrilateral. *)
Definition face_calls (c : rgb) (ps : list point) : list call :=
  let '(r, g, b) := c in
  glColor3f r g b :: map (fun p : point => let '(x, y, z) := p in glVertex3f x y z) ps.




(** *** The matrices

    The matrices of the backend are taken over the real numbers: how the
    backend rounds its own products is not the program's business.  A
    matrix is a function of the row and the column. *)

Inductive ix : Type := I0 | I1 | I2 | I3.

Definition mat : Type := ix -> ix -> R.

Definition mat_eq (A B : mat) : Prop := forall i j, A i j = B i j.

Definition mat_id : mat :=
  fun i j =>
    match i, j with
    | I0, I0 | I1, I1 | I2, I2 | I3, I3 => 1%R
    | _, _ => 0%R
    end.

Definition mat_mul (A B : mat) : mat :=
  fun i j =>
    (A i I0 * B I0 j + A i I1 * B I1 j + A i I2 * B I2 j + A i I3 * B I3 j)%R.

(** [glTranslatef(x, y, z)] multiplies the current matrix by this one. *)
Definition translation (x y z : R) : mat :=
  fun i j =>
    match i, j with
    | I0, I3 => x
    | I1, I3 => y
    | I2, I3 => z
    | _, _ => mat_id i j
    end.

(** [glRotatef(angle, x, y, z)] multiplies the current matrix by the rotation
    of [angle] degrees about the axis [(x, y, z)], normalised. *)
Definition rotation (angle x y z : R) : mat :=
  let n := sqrt (x * x + y * y + z * z) in
  let x := (x / n)%R in
  let y := (y / n)%R in
  let z := (z / n)%R in
  let c := cos (angle * PI / 180) in
  let s := sin (angle * PI / 180) in
  fun i j =>
    match i, j with
    | I0, I0 => x * x * (1 - c) + c
    | I0, I1 => x * y * (1 - c) - z * s
    | I0, I2 => x * z * (1 - c) + y * s
    | I1, I0 => y * x * (1 - c) + z * s
    | I1, I1 => y * y * (1 - c) + c
    | I1, I2 => y * z * (1 - c) - x * s
    | I2, I0 => x * z * (1 - c) - y * s
    | I2, I1 => y * z * (1 - c) + x * s
    | I2, I2 => z * z * (1 - c) + c
    | I3, I3 => 1
    | _, _ => 0
    end%R.

(** The value of a float as a real number (0 for infinities and NaN, which
    the program never hands to the backend). *)
Definition B2R (x : float32) : R :=
  match ulps x with
  | Some u => (IZR u / IZR (2 ^ 149))%R
  | None => 0%R
  end.

(** The matrix of [glm::perspective]. *)
Definition matrix_of (m : matrix_source) : mat :=
  let '(perspective fovy aspect zNear zFar) := m in
  let t := tan (B2R fovy * PI / 180 / 2) in
  let n := B2R zNear in
  let f := B2R zFar in
  fun i j =>
    match i, j with
    | I0, I0 => 1 / (B2R aspect * t)
    | I1, I1 => 1 / t
    | I2, I2 => - (f + n) / (f - n)
    | I2, I3 => - (2 * f * n) / (f - n)
    | I3, I2 => -1
    | _, _ => 0
    end%R.

(** The matrix state the program touches: the matrix mode and the
    model-view matrix.  A matrix call changes the model-view matrix when
    the mode is [GL_MODELVIEW], and another matrix otherwise. *)
Record gl_matrices : Type := mkMatrices {
  matrix_mode : Z;
  modelview : mat
}.

Definition gl_initial : gl_matrices := mkMatrices GL_MODELVIEW mat_id.

Definition on_current (f : mat -> mat) (st : gl_matrices) : gl_matrices :=
  if matrix_mode st =? GL_MODELVIEW
  then mkMatrices (matrix_mode st) (f (modelview st))
  else st.

Definition matrix_step (st : gl_matrices) (c : call) : gl_matrices :=
  match c with
  | glMatrixMode m => mkMatrices m (modelview st)
  | glLoadIdentity => on_current (fun _ => mat_id) st
  | glLoadMatrixf m => on_current (fun _ => matrix_of m) st
  | glTranslatef x y z =>
      on_current (fun M => mat_mul M (translation (B2R x) (B2R y) (B2R z))) st
  | glRotatef a x y z =>
      on_current (fun M => mat_mul M (rotation (B2R a) (B2R x) (B2R y) (B2R z))) st
  | _ => st
  end.

Definition run_matrices (cs : list call) (st : gl_matrices) : gl_matrices :=
  fold_left matrix_step cs st.

Definition is_matrix_call (c : call) : bool :=
  match c with
  | glMatrixMode _ | glLoadIdentity | glLoadMatrixf _
  | glTranslatef _ _ _ | glRotatef _ _ _ _ => true
  | _ => false
  end.

(** The number of frames presented so far. *)
Definition is_swap (c : call) : bool :=
  match c with glfwSwapBuffers => true | _ => false end.

Definition frames_rendered (w : World) : nat :=
  List.length (filter is_swap (calls w)).

(** The events that raise the close flag. *)
Definition is_quit (ev : event) : bool :=
  match ev with
  | KeyEvent key _ action _ => (key =? GLFW_KEY_ESCAPE) && (action =? GLFW_PRESS)
  | CloseRequest => true
  end.

(** The rotate-left and rotate-right key events that take effect. *)
Definition turns_left (ev : event) : bool :=
  match ev with
  | KeyEvent key _ action _ => (key =? GLFW_KEY_LEFT) && pressed_or_repeated action
  | CloseRequest => false
  end.

Definition turns_right (ev : event) : bool :=
  match ev with
  | KeyEvent key _ action _ => (key =? GLFW_KEY_RIGHT) && pressed_or_repeated action
  | CloseRequest => false
  end.

Definition is_turn (ev : event) : bool := turns_left ev || turns_right ev.

Definition count (f : event -> bool) (queue : list event) : Z :=
  Z.of_nat (List.length (filter f queue)).

(** The total over all the polls of a run. *)
Definition total (f : event -> bool) (ps : list (list event)) : Z :=
  count f (concat ps).

(** No event of the run raises the close flag. *)
Definition quiet (ps : list (list event)) : bool :=
  forallb (fun queue => negb (existsb is_quit queue)) ps.

(** The rotate-right repeat event of the key held down. *)
Definition right_repeat : event := KeyEvent GLFW_KEY_RIGHT 0 GLFW_REPEAT 0.

(** Whether a run left the loop. *)
Definition is_left (r : loop_result) : bool :=
  match r with Left_loop _ => true | Still_open _ => false end.

(** The state in which [main] enters its loop. *)
Definition loop_entry : World :=
  setup (emit (glfwCreateWindow WIDTH HEIGHT "Simple 3D Game - Hello World")
           (emit glfwInit world0)).

(** ** Further vocabulary

    For the properties of the code beyond those of the specification. *)

(** The rotate-up and rotate-down key events that take effect. *)
Definition turns_up (ev : event) : bool :=
  match ev with
  | KeyEvent key _ action _ => (key =? GLFW_KEY_UP) && pressed_or_repeated action
  | CloseRequest => false
  end.

Definition turns_down (ev : event) : bool :=
  match ev with
  | KeyEvent key _ action _ => (key =? GLFW_KEY_DOWN) && pressed_or_repeated action
  | CloseRequest => false
  end.

(** The five keys the callback tests for. *)
Definition known_key (key : Z) : bool :=
  (key =? GLFW_KEY_ESCAPE) || (key =? GLFW_KEY_LEFT) || (key =? GLFW_KEY_RIGHT)
  || (key =? GLFW_KEY_UP) || (key =? GLFW_KEY_DOWN).

(** The calls of one iteration of the loop in which no event calls back
    into the backend. *)
Definition iteration_calls (a : float32 * float32) : list call :=
  glfwWindowShouldClose :: frame_calls (fst a) (snd a) ++ [glfwPollEvents].

(** The calls that start and end the use of the library. *)
Definition is_lifecycle (c : call) : bool :=
  match c with
  | glfwInit | glfwCreateWindow _ _ _ | glfwTerminate => true
  | _ => false
  end.

Definition is_mode_call (c : call) : bool :=
  match c with glMatrixMode _ => true | _ => false end.

Definition final_world (o : outcome) : World :=
  match o with Returned _ w | Running w => w end.

(** The value [main] returns, when it returns. *)
Definition status (o : outcome) : option Z :=
  match o with Returned st _ => Some st | Running _ => None end.

(** *** The mesh in integers

    Twice the value of a coordinate, for the coordinates that are
    half-integers: the vertices of the cube become points of the integer
    grid and the geometry of the faces is integer arithmetic. *)

Definition vec : Type := (Z * Z * Z)%type.

Definition doubled (x : float32) : option Z :=
  match ulps x with
  | Some u => if u mod 2 ^ 148 =? 0 then Some (u / 2 ^ 148) else None
  | None => None
  end.

Definition doubled_point (p : point) : option vec :=
  let '(x, y, z) := p in
  match doubled x, doubled y, doubled z with
  | Some a, Some b, Some c => Some (a, b, c)
  | _, _, _ => None
  end.

Fixpoint doubled_points (ps : list point) : option (list vec) :=
  match ps with
  | [] => Some []
  | p :: ps' =>
      match doubled_point p, doubled_points ps' with
      | Some v, Some vs => Some (v :: vs)
      | _, _ => None
      end
  end.

Definition vsub (u v : vec) : vec :=
  let '(a, b, c) := u in
  let '(a', b', c') := v in
  (a - a', b - b', c - c').

Definition cross (u v : vec) : vec :=
  let '(a, b, c) := u in
  let '(a', b', c') := v in
  (b * c' - c * b', c * a' - a * c', a * b' - b * a').

(** The cross products of the two edges that meet at each of the four
    corners of a quadrilateral, taken in the order of the vertices. *)
Definition corner_normals (vs : list vec) : list vec :=
  match vs with
  | [a; b; c; d] =>
      [ cross (vsub b a) (vsub c b);
        cross (vsub c b) (vsub d c);
        cross (vsub d c) (vsub a d);
        cross (vsub a d) (vsub b a) ]
  | _ => []
  end.

(** The unit normal of a face that points out of the cube. *)
Definition outward (f : face) : vec :=
  match f with
  | Front => (0, 0, 1)
  | Back => (0, 0, -1)
  | Top => (0, 1, 0)
  | Bottom => (0, -1, 0)
  | Right => (1, 0, 0)
  | Left => (-1, 0, 0)
  end.

Definition vec_eqb (u v : vec) : bool :=
  let '(a, b, c) := u in
  let '(a', b', c') := v in
  (a =? a') && (b =? b') && (c =? c').

Definition scale (k : Z) (v : vec) : vec :=
  let '(a, b, c) := v in (k * a, k * b, k * c).

(** A quadrilateral is a unit square wound counter-clockwise as seen from
    the side [n] points to: at each corner the two edges, of doubled length
    2, turn left about [n], so each cross product is [4 * n]. *)
Definition wound_about (n : vec) (q : list vertex) : bool :=
  match doubled_points (map position q) with
  | Some vs =>
      (List.length vs =? 4)%nat
      && forallb (vec_eqb (scale 4 n)) (corner_normals vs)
  | None => false
  end.

(** The eight corners of the cube. *)
Definition corners : list point :=
  [ (neg half, neg half, neg half); (neg half, neg half, half);
    (neg half, half, neg half); (neg half, half, half);
    (half, neg half, neg half); (half, neg half, half);
    (half, half, neg half); (half, half, half) ].

Definition occurrences (p : point) (vs : list vertex) : nat :=
  List.length (filter (fun v => point_eqb p (position v)) vs).

(** The number of polls a run gets through: up to and including the first
    one that delivers a quit press or a close request. *)
Fixpoint polls_until_quit (ps : list (list event)) : nat :=
  match ps with
  | [] => 0
  | queue :: ps' => if existsb is_quit queue then 1 else S (polls_until_quit ps')
  end.

(** * Proofs *)

(** *** Exact additions

    Rounding is the identity on a value that is representable: this is what
    the accumulation of the angles relies on. *)

Lemma digits2_pos_size (p : positive) : digits2_pos p = Pos.size p.
Proof. induction p; simpl; congruence. Qed.

Lemma digits_log2 (p : positive) : Zpos (digits2_pos p) = Z.log2 (Zpos p) + 1.
Proof.
  rewrite digits2_pos_size.
  destruct p; simpl; try reflexivity; rewrite Pos2Z.inj_succ.
  all: destruct p; simpl; lia.
Qed.

Lemma iter_xO_pow2 (d m : positive) : Zpos (Pos.iter xO m d) = Zpos m * 2 ^ Zpos d.
Proof.
  induction d as [|d IH] using Pos.peano_ind.
  - simpl. lia.
  - rewrite Pos.iter_succ, Pos2Z.inj_xO, IH, Pos2Z.inj_succ, Z.pow_succ_r by lia. ring.
Qed.

Lemma shl_align_fst (m : positive) (e e' : Z) :
  e' <= e -> Zpos (fst (shl_align m e e')) = Zpos m * 2 ^ (e - e').
Proof.
  intros H. unfold shl_align.
  destruct (e' - e) as [|d|d] eqn:E; simpl fst.
  - replace (e - e') with 0 by lia. simpl. lia.
  - lia.
  - rewrite iter_xO_pow2. f_equal. f_equal. lia.
Qed.

Lemma shl_align_snd (m : positive) (e e' : Z) :
  e' <= e -> snd (shl_align m e e') = e'.
Proof.
  intros H. unfold shl_align.
  destruct (e' - e) as [|d|d] eqn:E; simpl snd; lia.
Qed.

Lemma shr_1_exact (m : positive) : shr_1 (exact_rec (Zpos m * 2)) = exact_rec (Zpos m).
Proof. rewrite Z.mul_comm. reflexivity. Qed.

Lemma pow2_xO (n : positive) : 2 ^ Zpos n~0 = 2 ^ Zpos n * 2 ^ Zpos n.
Proof. rewrite <- Z.pow_add_r by lia. f_equal. lia. Qed.

Lemma pow2_xI (n : positive) : 2 ^ Zpos n~1 = 2 ^ Zpos n * 2 ^ Zpos n * 2.
Proof.
  rewrite <- Z.pow_add_r by lia.
  replace (Zpos n~1) with (Z.succ (Zpos n + Zpos n)) by lia.
  rewrite Z.pow_succ_r by lia. ring.
Qed.

Lemma iter_shr_exact (n : positive) :
  forall m : positive,
    iter_pos shr_1 n (exact_rec (Zpos m * 2 ^ Zpos n)) = exact_rec (Zpos m).
Proof.
  induction n as [n IH|n IH|]; intros m; cbn [iter_pos].
  - replace (Zpos m * 2 ^ Zpos n~1) with (Zpos (Pos.iter xO (Pos.iter xO m n) n) * 2)
      by (rewrite !iter_xO_pow2, pow2_xI; ring).
    rewrite shr_1_exact, iter_xO_pow2, IH, iter_xO_pow2. apply IH.
  - replace (Zpos m * 2 ^ Zpos n~0) with (Zpos (Pos.iter xO m n) * 2 ^ Zpos n)
      by (rewrite iter_xO_pow2, pow2_xO; ring).
    rewrite IH, iter_xO_pow2. apply IH.
  - rewrite Z.pow_1_r. apply shr_1_exact.
Qed.

Lemma bounded_inv (m : positive) (t : Z) :
  bounded prec emax m t = true ->
  Z.max (Zpos (digits2_pos m) + t - 24) (-149) = t /\ t <= 104.
Proof.
  unfold bounded, canonical_mantissa, fexp, emin, prec, emax.
  intros H. apply andb_true_iff in H. destruct H as [H1 H2].
  apply Z.eqb_eq in H1. apply Z.leb_le in H2. simpl in H1, H2. split; assumption.
Qed.

Lemma shr_fexp_canonical (m : positive) (t : Z) :
  bounded prec emax m t = true ->
  shr_fexp prec emax (Zpos m) t loc_Exact = (exact_rec (Zpos m), t).
Proof.
  intros H. apply bounded_inv in H. destruct H as [H _].
  unfold shr_fexp, fexp, emin, prec, emax. simpl Zdigits2. simpl shr_record_of_loc.
  replace (Z.max (Zpos (digits2_pos m) + t - 24) (3 - 128 - 24) - t) with 0
    by (change (3 - 128 - 24) with (-149); lia).
  reflexivity.
Qed.

Lemma binary_round_aux_canonical (s : bool) (m : positive) (t : Z) :
  bounded prec emax m t = true ->
  binary_round_aux prec emax s (Zpos m) t loc_Exact = S754_finite s m t.
Proof.
  intros H. unfold binary_round_aux.
  rewrite (shr_fexp_canonical m t H). simpl.
  rewrite (shr_fexp_canonical m t H). simpl.
  apply bounded_inv in H. destruct H as [_ H].
  apply Z.leb_le in H. unfold emax, prec. simpl. rewrite H. reflexivity.
Qed.

(** A positive integer [p] scaled by [2^e] that equals a canonical binary32
    number [m * 2^t] is rounded to that number. *)
Lemma binary_round_exact (s : bool) (p : positive) (e : Z) (m : positive) (t : Z) :
  bounded prec emax m t = true ->
  -149 <= e ->
  Zpos p * 2 ^ (e + 149) = Zpos m * 2 ^ (t + 149) ->
  binary_round prec emax s p e = S754_finite s m t.
Proof.
  intros Hb He Hv.
  pose proof (bounded_inv m t Hb) as [Hc Ht].
  assert (Hd : Zpos (digits2_pos p) + e = Zpos (digits2_pos m) + t).
  { apply (f_equal Z.log2) in Hv.
    rewrite !Z.log2_mul_pow2 in Hv by lia. rewrite !digits_log2. lia. }
  unfold binary_round.
  assert (Hf : fexp prec emax (Zpos (digits2_pos p) + e) = t).
  { unfold fexp, emin, prec, emax. rewrite Hd.
    change (3 - 128 - 24) with (-149). lia. }
  rewrite Hf.
  destruct (Z_le_gt_dec t e) as [Hle|Hgt].
  - pose proof (shl_align_fst p e t Hle) as H1.
    pose proof (shl_align_snd p e t Hle) as H2.
    destruct (shl_align p e t) as [mz ez]. simpl in H1, H2. subst ez.
    assert (mz = m).
    { apply Pos2Z.inj. rewrite H1.
      replace (e + 149) with ((e - t) + (t + 149)) in Hv by lia.
      rewrite (Z.pow_add_r 2 (e - t) (t + 149)), Z.mul_assoc in Hv by lia.
      apply Z.mul_cancel_r in Hv; [assumption|].
      apply Z.pow_nonzero; lia. }
    subst mz. apply binary_round_aux_canonical; assumption.
  - unfold shl_align.
    destruct (t - e) as [|d|d] eqn:E; try lia.
    assert (Hp : Zpos p = Zpos m * 2 ^ Zpos d).
    { replace (t + 149) with (Zpos d + (e + 149)) in Hv by lia.
      rewrite (Z.pow_add_r 2 (Zpos d) (e + 149)), Z.mul_assoc in Hv by lia.
      apply Z.mul_cancel_r in Hv; [assumption|].
      apply Z.pow_nonzero; lia. }
    unfold binary_round_aux.
    assert (Hs : shr_fexp prec emax (Zpos p) e loc_Exact = (exact_rec (Zpos m), t)).
    { unfold shr_fexp. simpl Zdigits2. rewrite Hf, E. simpl shr_record_of_loc.
      unfold shr. fold (exact_rec (Zpos p)). rewrite Hp, iter_shr_exact.
      f_equal. lia. }
    rewrite Hs. simpl.
    rewrite (shr_fexp_canonical m t Hb). simpl.
    apply Z.leb_le in Ht. unfold emax, prec. simpl. rewrite Ht. reflexivity.
Qed.

Lemma ulps_finite (s : bool) (m : positive) (e : Z) :
  ulps (S754_finite s m e) = Some (cond_Zopp s (Zpos m * 2 ^ (e + 149))).
Proof. reflexivity. Qed.

Lemma Some_inj {A : Type} (a b : A) : Some a = Some b -> a = b.
Proof. congruence. Qed.

(** The sum of two finite numbers is the rounding of the exact sum. *)
Lemma add_finite (x y : float32) (ux uy : Z) :
  is_finite x = true -> is_finite y = true ->
  valid x = true -> valid y = true ->
  ulps x = Some ux -> ulps y = Some uy ->
  exists z ez, -149 <= ez /\ z * 2 ^ (ez + 149) = ux + uy /\
               add x y = binary_normalize prec emax z ez false.
Proof.
  destruct x as [| | |sx mx ex]; try discriminate.
  destruct y as [| | |sy my ey]; try discriminate.
  intros _ _ Vx Vy Ux Uy. simpl in Vx, Vy.
  pose proof (bounded_inv _ _ Vx) as [Hx _].
  pose proof (bounded_inv _ _ Vy) as [Hy _].
  rewrite ulps_finite in Ux, Uy. apply Some_inj in Ux, Uy.
  unfold add, SFadd. cbv zeta.
  set (ez := Z.min ex ey).
  assert (Hex : ez <= ex) by (unfold ez; lia).
  assert (Hey : ez <= ey) by (unfold ez; lia).
  assert (Hez : -149 <= ez) by (unfold ez; lia).
  pose proof (shl_align_fst mx ex ez Hex) as Ax.
  pose proof (shl_align_fst my ey ez Hey) as Ay.
  set (ax := fst (shl_align mx ex ez)) in *.
  set (ay := fst (shl_align my ey ez)) in *.
  exists (cond_Zopp sx (Zpos ax) + cond_Zopp sy (Zpos ay)), ez.
  split; [assumption|]. split; [|reflexivity].
  rewrite <- Ux, <- Uy, Z.mul_add_distr_r.
  replace (ex + 149) with ((ex - ez) + (ez + 149)) by lia.
  replace (ey + 149) with ((ey - ez) + (ez + 149)) by lia.
  rewrite (Z.pow_add_r 2 (ex - ez)), (Z.pow_add_r 2 (ey - ez)) by lia. rewrite Ax, Ay.
  generalize (2 ^ (ex - ez)) (2 ^ (ey - ez)) (2 ^ (ez + 149)). intros a b c.
  destruct sx, sy; unfold cond_Zopp; ring.
Qed.

(** Addition is exact when the sum of the two values is itself the value of
    a binary32 number. *)
Lemma add_exact (x y r : float32) (ux uy : Z) :
  is_finite x = true -> is_finite y = true -> is_finite r = true ->
  valid x = true -> valid y = true -> valid r = true ->
  ulps x = Some ux -> ulps y = Some uy -> ulps r = Some (ux + uy) ->
  add x y = r.
Proof.
  intros Fx Fy Fr Vx Vy Vr Ux Uy Ur.
  destruct (add_finite x y ux uy Fx Fy Vx Vy Ux Uy) as (z & ez & Hez & Hsum & ->).
  destruct r as [| | |sr mr er]; try discriminate.
  simpl in Vr. rewrite ulps_finite in Ur. apply Some_inj in Ur.
  pose proof (bounded_inv _ _ Vr) as [Hr _].
  assert (Hpos : 0 < 2 ^ (ez + 149)) by (apply Z.pow_pos_nonneg; lia).
  assert (Hpos' : 0 < Zpos mr * 2 ^ (er + 149))
    by (apply Z.mul_pos_pos; [lia | apply Z.pow_pos_nonneg; lia]).
  rewrite <- Ur in Hsum. unfold binary_normalize, cond_Zopp in *.
  destruct z as [|p|p].
  - destruct sr; lia.
  - destruct sr; [nia|].
    apply binary_round_exact; assumption.
  - destruct sr; [|nia].
    apply binary_round_exact; try assumption.
    change (Zneg p) with (- Zpos p) in Hsum. lia.
Qed.

(** Two finite numbers of opposite values add up to [+0]. *)
Lemma add_cancel (x y : float32) (ux uy : Z) :
  is_finite x = true -> is_finite y = true ->
  valid x = true -> valid y = true ->
  ulps x = Some ux -> ulps y = Some uy -> ux + uy = 0 ->
  add x y = zero.
Proof.
  intros Fx Fy Vx Vy Ux Uy H0.
  destruct (add_finite x y ux uy Fx Fy Vx Vy Ux Uy) as (z & ez & Hez & Hsum & ->).
  assert (Hpos : 0 < 2 ^ (ez + 149)) by (apply Z.pow_pos_nonneg; lia).
  assert (z = 0) by nia. subst z. reflexivity.
Qed.

(** [x - y] is [x + (-y)], bit for bit. *)
Lemma sub_add_neg (x y : float32) : sub x y = add x (neg y).
Proof.
  destruct x as [sx|sx| |sx mx ex], y as [sy|sy| |sy my ey];
    try reflexivity; destruct sx, sy; reflexivity.
Qed.

(** The numbers [k / 2] with [|k| <= 2^24] are all binary32 numbers. *)
Lemma of_half_spec (k : Z) :
  k <> 0 -> Z.abs k <= 2 ^ 24 ->
  is_finite (of_half k) = true /\ valid (of_half k) = true /\
  ulps (of_half k) = Some (k * 2 ^ 148).
Proof.
  intros Hk Hb.
  assert (Hcase : Z.abs k = 2 ^ 24 \/ Z.abs k < 2 ^ 24) by lia.
  destruct Hcase as [Hc|Hc].
  { assert (Hk' : k = 16777216 \/ k = -16777216) by lia.
    destruct Hk' as [->| ->]; repeat split; reflexivity. }
  assert (Hg : forall s (p : positive), Zpos p < 2 ^ 24 ->
    exists m t, bounded prec emax m t = true /\
                binary_round prec emax s p (-1) = S754_finite s m t /\
                Zpos m * 2 ^ (t + 149) = Zpos p * 2 ^ 148).
  { intros s p Hp.
    set (d := Zpos (digits2_pos p)).
    assert (Hd : 1 <= d <= 24).
    { unfold d. rewrite digits_log2.
      pose proof (Z.log2_nonneg (Zpos p)).
      assert (Z.log2 (Zpos p) < 24) by (apply Z.log2_lt_pow2; lia). lia. }
    assert (Hm : 0 < Zpos p * 2 ^ (24 - d))
      by (apply Z.mul_pos_pos; [lia | apply Z.pow_pos_nonneg; lia]).
    destruct (Zpos p * 2 ^ (24 - d)) as [|m|m] eqn:Em; try lia.
    assert (Hdm : Zpos (digits2_pos m) = 24).
    { rewrite digits_log2, <- Em, Z.log2_mul_pow2 by lia.
      fold d. unfold d. rewrite digits_log2. lia. }
    assert (Hbd : bounded prec emax m (d - 25) = true).
    { unfold bounded, canonical_mantissa, fexp, emin, prec, emax.
      rewrite Hdm. apply andb_true_iff. split.
      - apply Z.eqb_eq. change (3 - 128 - 24) with (-149). lia.
      - apply Z.leb_le. change (128 - 24) with 104. lia. }
    assert (Hv : Zpos m * 2 ^ (d - 25 + 149) = Zpos p * 2 ^ 148).
    { rewrite <- Em, <- Z.mul_assoc, <- Z.pow_add_r by lia. do 2 f_equal. lia. }
    exists m, (d - 25). split; [assumption|]. split; [|assumption].
    apply binary_round_exact; [assumption | lia |].
    rewrite Hv. reflexivity. }
  unfold of_half, binary_normalize.
  destruct k as [|p|p]; [congruence| |].
  - destruct (Hg false p) as (m & t & Hbd & -> & Hv); [lia|].
    split; [reflexivity|]. split; [exact Hbd|]. rewrite ulps_finite. unfold cond_Zopp.
    rewrite Hv. reflexivity.
  - destruct (Hg true p) as (m & t & Hbd & -> & Hv); [lia|].
    split; [reflexivity|]. split; [exact Hbd|]. rewrite ulps_finite. unfold cond_Zopp.
    rewrite Hv. f_equal; lia.
Qed.

(** Adding half-integers stays exact as long as the sum is at most 2^23 in
    magnitude. *)
Lemma add_of_half (k d : Z) :
  Z.abs k <= 2 ^ 24 -> Z.abs d <= 2 ^ 24 -> Z.abs (k + d) <= 2 ^ 24 ->
  add (of_half k) (of_half d) = of_half (k + d).
Proof.
  intros Hk Hd Hs.
  destruct (Z.eq_dec k 0) as [->|Nk].
  { simpl. destruct (Z.eq_dec d 0) as [->|Nd]; [reflexivity|].
    destruct (of_half_spec d Nd Hd) as (Fd & _ & _).
    change (of_half 0) with zero.
    destruct (of_half d); try discriminate. reflexivity. }
  destruct (Z.eq_dec d 0) as [->|Nd].
  { rewrite Z.add_0_r.
    destruct (of_half_spec k Nk Hk) as (Fk & _ & _).
    change (of_half 0) with zero.
    destruct (of_half k); try discriminate. reflexivity. }
  destruct (of_half_spec k Nk Hk) as (Fk & Vk & Uk).
  destruct (of_half_spec d Nd Hd) as (Fd & Vd & Ud).
  destruct (Z.eq_dec (k + d) 0) as [E|Ns].
  - rewrite E. change (of_half 0) with zero.
    apply (add_cancel _ _ _ _ Fk Fd Vk Vd Uk Ud). nia.
  - destruct (of_half_spec (k + d) Ns Hs) as (Fs & Vs & Us).
    apply (add_exact _ _ _ _ _ Fk Fd Fs Vk Vd Vs Uk Ud).
    rewrite Us. f_equal. ring.
Qed.

(** The value held by [of_half k]. *)
Lemma holds_of_half (k : Z) :
  Z.abs k <= 2 ^ 24 -> holds (of_half k) (Qmake k 2).
Proof.
  intros Hb. unfold holds, B2Q.
  destruct (Z.eq_dec k 0) as [->|Nk]; [reflexivity|].
  destruct (of_half_spec k Nk Hb) as (_ & _ & ->).
  unfold Qeq. simpl Qnum. simpl Qden.
  rewrite <- Z.mul_assoc. f_equal.
Qed.


(** The literals of the source hold the values they are written as, the two
    that are not binary fractions being the floats nearest to them. *)
Lemma literal_values :
  holds zero 0 /\ holds half (Qmake 1 2) /\ holds one 1 /\ holds three 3 /\
  holds five 5 /\
  tenth = SFdiv prec emax (of_Z 1) (of_Z 10) /\
  c015 = SFdiv prec emax (of_Z 15) (of_Z 100).
Proof. repeat split; vm_compute; reflexivity. Qed.

(** ** The state through the calls *)

Lemma emit_all_cons (c : call) (cs : list call) (w : World) :
  emit_all (c :: cs) w = emit_all cs (emit c w).
Proof. reflexivity. Qed.

Lemma emit_all_spec (cs : list call) (w : World) :
  emit_all cs w = mkWorld (angleX w) (angleY w) (should_close w) (calls w ++ cs).
Proof.
  revert w. induction cs as [|c cs IH]; intros [ax ay closing l].
  - simpl. now rewrite app_nil_r.
  - rewrite emit_all_cons, IH. simpl. now rewrite <- app_assoc.
Qed.

Lemma frame_spec (w : World) :
  frame w = mkWorld (angleX w) (add (angleY w) half) (should_close w)
              (calls w ++ frame_calls (angleX w) (angleY w)).
Proof.
  destruct w as [ax ay closing l].
  unfold frame, drawCube, frame_calls. rewrite !emit_all_spec.
  cbn [emit set_angleY angleX angleY should_close calls].
  do 4 rewrite <- app_assoc. reflexivity.
Qed.

(** The key callback in one step: the five tests of the source are on
    five different keys, so at most one of them fires. *)
Lemma key_callback_spec (key scancode action mode : Z) (w : World) :
  key_callback key scancode action mode w =
  mkWorld
    (if (key =? GLFW_KEY_UP) && pressed_or_repeated action
     then sub (angleX w) five
     else if (key =? GLFW_KEY_DOWN) && pressed_or_repeated action
          then add (angleX w) five else angleX w)
    (if (key =? GLFW_KEY_LEFT) && pressed_or_repeated action
     then sub (angleY w) five
     else if (key =? GLFW_KEY_RIGHT) && pressed_or_repeated action
          then add (angleY w) five else angleY w)
    (if (key =? GLFW_KEY_ESCAPE) && (action =? GLFW_PRESS)
     then true else should_close w)
    (if (key =? GLFW_KEY_ESCAPE) && (action =? GLFW_PRESS)
     then calls w ++ [glfwSetWindowShouldClose GL_TRUE] else calls w).
Proof.
  destruct w as [ax ay closing l]. unfold key_callback.
  unfold GLFW_KEY_ESCAPE, GLFW_KEY_LEFT, GLFW_KEY_RIGHT, GLFW_KEY_UP, GLFW_KEY_DOWN.
  destruct (pressed_or_repeated action), (action =? GLFW_PRESS);
    destruct (Z.eqb_spec key 256) as [->|N1]; try reflexivity;
    destruct (Z.eqb_spec key 263) as [->|N2]; try reflexivity;
    destruct (Z.eqb_spec key 262) as [->|N3]; try reflexivity;
    destruct (Z.eqb_spec key 265) as [->|N4]; try reflexivity;
    destruct (Z.eqb_spec key 264) as [->|N5]; reflexivity.
Qed.

Lemma dispatch_angleY (w : World) (ev : event) :
  angleY (dispatch w ev) =
  if turns_left ev then sub (angleY w) five
  else if turns_right ev then add (angleY w) five
  else angleY w.
Proof.
  destruct ev as [key sc action mods|]; simpl.
  - rewrite key_callback_spec. reflexivity.
  - destruct w; reflexivity.
Qed.

Lemma dispatch_should_close (w : World) (ev : event) :
  should_close (dispatch w ev) = should_close w || is_quit ev.
Proof.
  destruct ev as [key sc action mods|]; simpl.
  - rewrite key_callback_spec. simpl.
    destruct ((key =? GLFW_KEY_ESCAPE) && (action =? GLFW_PRESS)), (should_close w);
      reflexivity.
  - destruct w as [ax ay [|] l]; reflexivity.
Qed.

Lemma dispatch_calls (w : World) (ev : event) :
  exists cs, calls (dispatch w ev) = calls w ++ cs /\ filter is_swap cs = [].
Proof.
  destruct ev as [key sc action mods|]; simpl.
  - rewrite key_callback_spec. simpl.
    destruct ((key =? GLFW_KEY_ESCAPE) && (action =? GLFW_PRESS)).
    + eexists. split; reflexivity.
    + exists []. now rewrite app_nil_r.
  - exists []. destruct w; simpl. now rewrite app_nil_r.
Qed.

(** *** One poll *)

Lemma poll_should_close (queue : list event) (w : World) :
  should_close (fold_left dispatch queue w) = should_close w || existsb is_quit queue.
Proof.
  revert w. induction queue as [|ev queue IH]; intros w; simpl.
  - now rewrite orb_false_r.
  - rewrite IH, dispatch_should_close. now rewrite orb_assoc.
Qed.

Lemma poll_calls (queue : list event) (w : World) :
  exists cs, calls (fold_left dispatch queue w) = calls w ++ cs /\ filter is_swap cs = [].
Proof.
  revert w. induction queue as [|ev queue IH]; intros w; simpl.
  - exists []. now rewrite app_nil_r.
  - destruct (IH (dispatch w ev)) as (cs & H1 & H2).
    destruct (dispatch_calls w ev) as (cs' & H3 & H4).
    exists (cs' ++ cs). rewrite H1, H3, <- app_assoc, filter_app, H2, H4. auto.
Qed.

Lemma count_cons (f : event -> bool) (ev : event) (queue : list event) :
  count f (ev :: queue) = (if f ev then 1 else 0) + count f queue.
Proof.
  unfold count. simpl. destruct (f ev); simpl List.length; lia.
Qed.

Lemma count_nonneg (f : event -> bool) (queue : list event) : 0 <= count f queue.
Proof. unfold count. lia. Qed.

Lemma turn_exclusive (ev : event) : turns_left ev = true -> turns_right ev = false.
Proof.
  destruct ev as [key sc action mods|]; simpl; [|discriminate].
  unfold GLFW_KEY_LEFT, GLFW_KEY_RIGHT.
  destruct (Z.eqb_spec key 263) as [->|]; [reflexivity|discriminate].
Qed.

Lemma five_of_half : five = of_half 10.
Proof. reflexivity. Qed.

Lemma neg_five_of_half : neg five = of_half (-10).
Proof. reflexivity. Qed.

Lemma half_of_half : half = of_half 1.
Proof. reflexivity. Qed.

(** The yaw after the events of one poll, as long as it stays in the range
    where every half-integer is a float. *)
Lemma poll_angleY (queue : list event) :
  forall (w : World) (k : Z),
    angleY w = of_half k ->
    Z.abs k + 10 * (count turns_left queue + count turns_right queue) <= 2 ^ 24 ->
    angleY (fold_left dispatch queue w) =
    of_half (k + 10 * (count turns_right queue - count turns_left queue)).
Proof.
  induction queue as [|ev queue IH]; intros w k Hk Hb.
  - simpl. rewrite Hk. f_equal. unfold count. simpl. lia.
  - rewrite !count_cons in Hb. rewrite !count_cons.
    pose proof (count_nonneg turns_left queue).
    pose proof (count_nonneg turns_right queue).
    cbn [fold_left].
    pose proof (dispatch_angleY w ev) as Hd.
    pose proof (turn_exclusive ev) as Hx.
    destruct (turns_left ev) eqn:El.
    + rewrite Hx in * by reflexivity.
      rewrite (IH (dispatch w ev) (k - 10)).
      * f_equal; lia.
      * rewrite Hd, sub_add_neg, Hk, neg_five_of_half.
        rewrite add_of_half by lia. f_equal; lia.
      * lia.
    + destruct (turns_right ev) eqn:Er.
      * rewrite (IH (dispatch w ev) (k + 10)).
        -- f_equal; lia.
        -- rewrite Hd, Hk, five_of_half. rewrite add_of_half by lia. reflexivity.
        -- lia.
      * rewrite (IH (dispatch w ev) k).
        -- f_equal; lia.
        -- rewrite Hd. assumption.
        -- lia.
Qed.

(** *** The loop *)

Lemma iteration_spec (queue : list event) (w : World) :
  iteration queue w =
  fold_left dispatch queue
    (mkWorld (angleX w) (add (angleY w) half) (should_close w)
       (calls w ++ glfwWindowShouldClose
                     :: frame_calls (angleX w) (angleY w) ++ [glfwPollEvents])).
Proof.
  unfold iteration, do_glfwPollEvents. rewrite frame_spec.
  destruct w as [ax ay closing l]. simpl emit. cbn [angleX angleY should_close calls].
  do 2 f_equal. rewrite <- !app_assoc. reflexivity.
Qed.

Lemma main_loop_nil (w : World) :
  main_loop [] w =
  if should_close w then Left_loop (emit glfwWindowShouldClose w) else Still_open w.
Proof. reflexivity. Qed.

Lemma main_loop_cons (queue : list event) (ps : list (list event)) (w : World) :
  main_loop (queue :: ps) w =
  if should_close w then Left_loop (emit glfwWindowShouldClose w)
  else main_loop ps (iteration queue w).
Proof. reflexivity. Qed.

Lemma main_loop_closed (ps : list (list event)) (w : World) :
  should_close w = true -> main_loop ps w = Left_loop (emit glfwWindowShouldClose w).
Proof. intros H. destruct ps; simpl; rewrite H; reflexivity. Qed.

(** A run over [ps ++ qs] is the run over [ps] continued over [qs]. *)
Lemma main_loop_app (ps qs : list (list event)) :
  forall w : World,
    main_loop (ps ++ qs) w =
    match main_loop ps w with
    | Left_loop w' => Left_loop w'
    | Still_open w' => main_loop qs w'
    end.
Proof.
  induction ps as [|queue ps IH]; intros w.
  - rewrite main_loop_nil. simpl app.
    destruct (should_close w) eqn:E; [|reflexivity].
    now apply main_loop_closed.
  - simpl app. rewrite !main_loop_cons.
    destruct (should_close w); [reflexivity|]. apply IH.
Qed.

Lemma total_cons (f : event -> bool) (queue : list event) (ps : list (list event)) :
  total f (queue :: ps) = count f queue + total f ps.
Proof.
  unfold total, count. simpl concat. rewrite filter_app, length_app. lia.
Qed.

Lemma total_nonneg (f : event -> bool) (ps : list (list event)) : 0 <= total f ps.
Proof. unfold total. apply count_nonneg. Qed.

(** The yaw over a run in which nothing closes the window: every frame adds
    one half, every rotate-right event ten halves, every rotate-left event
    takes ten halves away, all of it exactly while the magnitudes stay
    within 2^24 halves. *)
Lemma loop_angleY (ps : list (list event)) :
  forall (w : World) (k : Z),
    should_close w = false ->
    quiet ps = true ->
    angleY w = of_half k ->
    Z.abs k + 10 * (total turns_left ps + total turns_right ps)
      + Z.of_nat (List.length ps) <= 2 ^ 24 ->
    exists w',
      main_loop ps w = Still_open w' /\
      should_close w' = false /\
      angleY w' = of_half (k + 10 * (total turns_right ps - total turns_left ps)
                             + Z.of_nat (List.length ps)).
Proof.
  induction ps as [|queue ps IH]; intros w k Hc Hq Hk Hb.
  - exists w. rewrite main_loop_nil, Hc. repeat split; try assumption.
    rewrite Hk. f_equal. unfold total, count. simpl. lia.
  - rewrite !total_cons in Hb. rewrite !total_cons.
    pose proof (total_nonneg turns_left ps).
    pose proof (total_nonneg turns_right ps).
    pose proof (count_nonneg turns_left queue).
    pose proof (count_nonneg turns_right queue).
    simpl in Hq. apply andb_true_iff in Hq. destruct Hq as [Hq1 Hq2].
    apply negb_true_iff in Hq1.
    rewrite main_loop_cons, Hc.
    change (List.length (queue :: ps)) with (S (List.length ps)) in *.
    rewrite Nat2Z.inj_succ in *.
    destruct (IH (iteration queue w)
                 (k + 1 + 10 * (count turns_right queue - count turns_left queue)))
      as (w' & R1 & R2 & R3).
    + rewrite iteration_spec, poll_should_close. simpl should_close.
      rewrite Hc, Hq1. reflexivity.
    + assumption.
    + rewrite iteration_spec. apply poll_angleY.
      * simpl angleY. rewrite Hk, half_of_half. apply add_of_half; lia.
      * lia.
    + lia.
    + exists w'. repeat split; try assumption.
      rewrite R3. f_equal; lia.
Qed.

(** *** Reordering the events of a poll *)

Lemma count_perm (f : event -> bool) (q q' : list event) :
  Permutation q q' -> count f q = count f q'.
Proof.
  induction 1 as [|ev q q' _ IH|ev ev' q|q q' q'' _ IH1 _ IH2].
  - reflexivity.
  - rewrite !count_cons, IH. reflexivity.
  - rewrite !count_cons. lia.
  - congruence.
Qed.

Lemma existsb_perm (f : event -> bool) (q q' : list event) :
  Permutation q q' -> existsb f q = existsb f q'.
Proof.
  induction 1 as [|ev q q' _ IH|ev ev' q|q q' q'' _ IH1 _ IH2]; simpl.
  - reflexivity.
  - now rewrite IH.
  - destruct (f ev), (f ev'); reflexivity.
  - congruence.
Qed.

Lemma polls_perm (f : event -> bool) (ps ps' : list (list event)) :
  Forall2 (@Permutation event) ps ps' ->
  total f ps = total f ps' /\ List.length ps = List.length ps' /\ quiet ps = quiet ps'.
Proof.
  induction 1 as [|q q' ps ps' Hq _ (IH1 & IH2 & IH3)].
  - repeat split.
  - rewrite !total_cons, IH1, (count_perm f q q' Hq). simpl.
    rewrite IH2, IH3, (existsb_perm is_quit q q' Hq). repeat split.
Qed.

Lemma holds_ext (x : float32) (q q' : Q) : Qeq q q' -> holds x q -> holds x q'.
Proof.
  unfold holds. destruct (B2Q x); [|tauto].
  intros H1 H2. now rewrite H2.
Qed.

(** *** Runs without input *)

Lemma count_repeat (f : event -> bool) (ev : event) (n : nat) :
  count f (repeat ev n) = if f ev then Z.of_nat n else 0.
Proof.
  induction n as [|n IH].
  - destruct (f ev); reflexivity.
  - cbn [repeat]. rewrite count_cons, IH. destruct (f ev); lia.
Qed.

Lemma idle_total (f : event -> bool) (n : nat) : total f (repeat [] n) = 0.
Proof.
  induction n as [|n IH]; [reflexivity|].
  cbn [repeat]. rewrite total_cons, IH. reflexivity.
Qed.

Lemma idle_quiet (n : nat) : quiet (repeat [] n) = true.
Proof. induction n as [|n IH]; [reflexivity|]. cbn [repeat]. simpl. exact IH. Qed.

Lemma idle_angleX (n : nat) :
  forall w : World,
    should_close w = false ->
    exists w', main_loop (repeat [] n) w = Still_open w' /\ angleX w' = angleX w.
Proof.
  induction n as [|n IH]; intros w Hc.
  - exists w. rewrite main_loop_nil, Hc. split; reflexivity.
  - cbn [repeat]. rewrite main_loop_cons, Hc.
    destruct (IH (iteration [] w)) as (w' & H1 & H2).
    + rewrite iteration_spec. simpl. exact Hc.
    + exists w'. split; [exact H1|]. rewrite H2, iteration_spec. reflexivity.
Qed.

(** The yaw of a run of [n] frames without input, from a yaw of [k] halves. *)
Lemma idle_angleY (n : nat) (w : World) (k : Z) :
  should_close w = false ->
  angleY w = of_half k ->
  Z.abs k + Z.of_nat n <= 2 ^ 24 ->
  exists w',
    main_loop (repeat [] n) w = Still_open w' /\
    should_close w' = false /\ angleY w' = of_half (k + Z.of_nat n).
Proof.
  intros Hc Hk Hb.
  destruct (loop_angleY (repeat [] n) w k Hc (idle_quiet n) Hk) as (w' & H1 & H2 & H3).
  - rewrite !idle_total, repeat_length. lia.
  - exists w'. repeat split; try assumption.
    rewrite H3, !idle_total, repeat_length. f_equal; lia.
Qed.

Lemma loop_entry_state :
  angleX loop_entry = zero /\ angleY loop_entry = zero /\ should_close loop_entry = false.
Proof. repeat split. Qed.

(** Once the yaw is 8388608 a frame no longer changes it: the next float
    is 8388609, and 8388608.5 rounds to the even neighbour. *)
Lemma yaw_saturated : add (of_half 16777216) half = of_half 16777216.
Proof. reflexivity. Qed.

(** One frame past 2^24 frames: the yaw is still 8388608. *)
Lemma idle_saturates (n : nat) :
  Z.of_nat n = 16777216 ->
  angleY (world_of (main_loop (repeat [] (n + 1)) loop_entry)) = of_half 16777216.
Proof.
  intros Hz.
  rewrite repeat_app, main_loop_app.
  destruct (idle_angleY n loop_entry 0) as (w' & H1 & H2 & H3);
    [reflexivity | reflexivity | rewrite Hz; simpl; lia |].
  rewrite H1. change (repeat [] 1) with [@nil event].
  rewrite main_loop_cons, H2, main_loop_nil.
  assert (Hy : angleY (iteration [] w') = of_half 16777216).
  { rewrite iteration_spec. cbn [fold_left angleY]. rewrite H3, Hz. apply yaw_saturated. }
  destruct (should_close (iteration [] w')); cbn [world_of]; [|exact Hy].
  destruct (iteration [] w'); exact Hy.
Qed.

Lemma angleY_after_loop_end (w : World) :
  angleY (world_of (main_loop [] w)) = angleY w.
Proof.
  rewrite main_loop_nil. destruct w as [ax ay [|] l]; reflexivity.
Qed.

Lemma turn_not_quit (ev : event) : is_turn ev = true -> is_quit ev = false.
Proof.
  destruct ev as [key sc action mods|]; [|discriminate].
  unfold is_turn, turns_left, turns_right, is_quit.
  unfold GLFW_KEY_LEFT, GLFW_KEY_RIGHT, GLFW_KEY_ESCAPE.
  destruct (Z.eqb_spec key 256) as [->|]; [simpl; discriminate|reflexivity].
Qed.

Lemma turns_quiet (ps : list (list event)) :
  forallb (forallb is_turn) ps = true -> quiet ps = true.
Proof.
  induction ps as [|q ps IH]; [reflexivity|].
  simpl. intros H. apply andb_true_iff in H. destruct H as [H1 H2].
  rewrite (IH H2), andb_true_r. apply negb_true_iff.
  induction q as [|ev q IHq]; [reflexivity|].
  simpl in H1 |- *. apply andb_true_iff in H1. destruct H1 as [H3 H4].
  rewrite (turn_not_quit ev H3), (IHq H4). reflexivity.
Qed.

(** One frame, then 1677722 rotate-right events in the poll that follows:
    the last addition of 5 to 8388605.5 is rounded to 8388610. *)
Lemma turn_saturates (n : nat) :
  Z.of_nat n = 1677721 ->
  angleY (world_of (main_loop [repeat right_repeat (n + 1)] loop_entry))
  = S754_finite false 8388610 0.
Proof.
  intros Hz.
  rewrite main_loop_cons. change (should_close loop_entry) with false. cbv iota.
  rewrite angleY_after_loop_end, iteration_spec, repeat_app, fold_left_app.
  change (repeat right_repeat 1) with [right_repeat]. cbn [fold_left].
  rewrite dispatch_angleY. change (turns_left right_repeat) with false.
  change (turns_right right_repeat) with true. cbv iota.
  rewrite (poll_angleY (repeat right_repeat n) _ 1).
  - rewrite !count_repeat. change (turns_left right_repeat) with false.
    change (turns_right right_repeat) with true. cbv iota. rewrite Hz.
    reflexivity.
  - reflexivity.
  - rewrite !count_repeat. change (turns_left right_repeat) with false.
    change (turns_right right_repeat) with true. cbv iota. rewrite Hz.
    simpl. lia.
Qed.

(** *** Frames and leaving the loop *)

Lemma frame_calls_swaps (ax ay : float32) :
  filter is_swap (frame_calls ax ay) = [glfwSwapBuffers].
Proof. reflexivity. Qed.

Lemma frames_rendered_emit (c : call) (w : World) :
  frames_rendered (emit c w) = (frames_rendered w + if is_swap c then 1 else 0)%nat.
Proof.
  destruct w as [ax ay closing l]. unfold frames_rendered. simpl.
  rewrite filter_app, length_app. simpl. destruct (is_swap c); reflexivity.
Qed.

Lemma iteration_state (queue : list event) (w : World) :
  should_close (iteration queue w) = should_close w || existsb is_quit queue /\
  frames_rendered (iteration queue w) = (frames_rendered w + 1)%nat.
Proof.
  rewrite iteration_spec. split.
  - rewrite poll_should_close. reflexivity.
  - unfold frames_rendered.
    match goal with |- context [fold_left dispatch queue ?v] =>
      destruct (poll_calls queue v) as (cs & -> & Hcs) end.
    cbn [calls]. rewrite !filter_app, Hcs, app_nil_r.
    change (glfwWindowShouldClose :: frame_calls (angleX w) (angleY w) ++ [glfwPollEvents])
      with ([glfwWindowShouldClose] ++ frame_calls (angleX w) (angleY w) ++ [glfwPollEvents]).
    rewrite !filter_app, frame_calls_swaps, !length_app. simpl. lia.
Qed.

(** The loop is left exactly when the close flag was already up or one of
    the polled events raises it. *)
Lemma is_left_spec (ps : list (list event)) :
  forall w : World, is_left (main_loop ps w) = should_close w || negb (quiet ps).
Proof.
  induction ps as [|queue ps IH]; intros w.
  - rewrite main_loop_nil. destruct (should_close w); reflexivity.
  - rewrite main_loop_cons. destruct (should_close w) eqn:Hc; [reflexivity|].
    rewrite IH, (proj1 (iteration_state queue w)), Hc. simpl.
    destruct (existsb is_quit queue); reflexivity.
Qed.

(** While nothing raises the flag every poll is preceded by one frame. *)
Lemma loop_quiet_frames (ps : list (list event)) :
  forall w : World,
    should_close w = false -> quiet ps = true ->
    exists w',
      main_loop ps w = Still_open w' /\ should_close w' = false /\
      frames_rendered w' = (frames_rendered w + List.length ps)%nat.
Proof.
  induction ps as [|queue ps IH]; intros w Hc Hq.
  - exists w. rewrite main_loop_nil, Hc. simpl. repeat split; try assumption; lia.
  - simpl in Hq. apply andb_true_iff in Hq. destruct Hq as [Hq1 Hq2].
    apply negb_true_iff in Hq1.
    destruct (iteration_state queue w) as [I1 I2].
    destruct (IH (iteration queue w)) as (w' & H1 & H2 & H3);
      [rewrite I1, Hc, Hq1; reflexivity | assumption |].
    exists w'. rewrite main_loop_cons, Hc. repeat split; try assumption.
    rewrite H3, I2. simpl. lia.
Qed.

Lemma existsb_quit_press (queue : list event) (sc mods : Z) :
  In (KeyEvent GLFW_KEY_ESCAPE sc GLFW_PRESS mods) queue -> existsb is_quit queue = true.
Proof.
  intros H. apply existsb_exists. eexists. split; [exact H|reflexivity].
Qed.

(** From 8388608 on, the automatic rotation no longer moves the yaw. *)
Lemma idle_stuck (n : nat) :
  forall w : World,
    should_close w = false ->
    angleY w = of_half 16777216 ->
    angleY (world_of (main_loop (repeat [] n) w)) = of_half 16777216.
Proof.
  induction n as [|n IH]; intros w Hc Hy.
  - cbn [repeat]. rewrite angleY_after_loop_end. exact Hy.
  - cbn [repeat]. rewrite main_loop_cons, Hc. apply IH.
    + rewrite (proj1 (iteration_state [] w)), Hc. reflexivity.
    + rewrite iteration_spec. cbn [fold_left angleY]. rewrite Hy. apply yaw_saturated.
Qed.

(** * The properties of the specification *)

(** C2, within the exact range of binary32: from pitch 0 and yaw 0, after [n] iterations of the
    render loop without key input the yaw is exactly [n / 2] and the pitch
    is 0, for every [n] up to 2^24 = 16777216. *)
Theorem C2_idle_frames (n : nat) (w : World) :
  angleX w = zero -> angleY w = zero -> should_close w = false ->
  Z.of_nat n <= 2 ^ 24 ->
  exists w',
    main_loop (repeat [] n) w = Still_open w' /\
    holds (angleY w') (Qmake 1 2 * inject_Z (Z.of_nat n)) /\
    angleX w' = zero.
Proof.
  intros Hx Hy Hc Hn.
  destruct (idle_angleY n w 0 Hc Hy) as (w' & H1 & _ & H3); [lia|].
  destruct (idle_angleX n w Hc) as (w'' & H1' & H4).
  rewrite H1 in H1'. injection H1' as <-.
  exists w'. split; [exact H1|]. split; [|congruence].
  rewrite H3. apply holds_ext with (q := Qmake (0 + Z.of_nat n) 2).
  - unfold Qeq, Qmult, inject_Z. cbn [Qnum Qden]. lia.
  - apply holds_of_half. lia.
Qed.

Lemma C2_idle_frames_witness :
  exists w',
    main_loop (repeat [] 3) loop_entry = Still_open w' /\
    holds (angleY w') (Qmake 1 2 * inject_Z 3) /\
    angleX w' = zero.
Proof.
  apply (C2_idle_frames 3 loop_entry); [reflexivity | reflexivity | reflexivity |].
  simpl. lia.
Defined.

(** C2 without the bound fails: after 16777217 frames without input the yaw is
    8388608, not 8388608.5. *)
Lemma C2_counterexample :
  ~ holds (angleY (world_of (main_loop (repeat [] (Z.to_nat 16777217)) loop_entry)))
          (Qmake 1 2 * inject_Z 16777217).
Proof.
  assert (Hn : Z.to_nat 16777217 = (Z.to_nat 16777216 + 1)%nat) by lia.
  rewrite Hn, idle_saturates by lia.
  vm_compute. discriminate.
Qed.

(** C1, within the exact range of binary32: over a run of rotate-left and rotate-right press or
    repeat events interleaved with frames, from a yaw of [k / 2], the yaw
    changes by exactly 5 * (rights - lefts) + 0.5 * frames, whatever the
    order of the events inside each poll, provided
    |k| + 10 * (number of events) + (number of frames) <= 2^24. *)
Theorem C1_yaw_net_change (ps ps' : list (list event)) (w : World) (k : Z) :
  should_close w = false ->
  angleY w = of_half k ->
  forallb (forallb is_turn) ps = true ->
  Z.abs k + 10 * (total turns_left ps + total turns_right ps)
    + Z.of_nat (List.length ps) <= 2 ^ 24 ->
  Forall2 (@Permutation event) ps ps' ->
  exists w1 w2,
    main_loop ps w = Still_open w1 /\
    main_loop ps' w = Still_open w2 /\
    holds (angleY w) (Qmake k 2) /\
    holds (angleY w1)
      (Qmake k 2
       + 5 * inject_Z (total turns_right ps - total turns_left ps)
       + Qmake 1 2 * inject_Z (Z.of_nat (List.length ps))) /\
    angleY w2 = angleY w1.
Proof.
  intros Hc Hk Ht Hb Hp.
  pose proof (turns_quiet ps Ht) as Hq.
  pose proof (total_nonneg turns_left ps) as Hl.
  pose proof (total_nonneg turns_right ps) as Hr.
  destruct (polls_perm turns_left ps ps' Hp) as (El & En & Eq).
  destruct (polls_perm turns_right ps ps' Hp) as (Er & _ & _).
  destruct (loop_angleY ps w k Hc Hq Hk Hb) as (w1 & H1 & _ & H3).
  destruct (loop_angleY ps' w k Hc) as (w2 & H2 & _ & H4);
    [congruence | assumption | rewrite <- El, <- Er, <- En; assumption |].
  exists w1, w2. repeat split; try assumption.
  - rewrite Hk. apply holds_of_half. lia.
  - rewrite H3. eapply holds_ext; [|apply holds_of_half; lia].
    unfold Qeq, Qplus, Qmult, inject_Z. cbn [Qnum Qden]. lia.
  - rewrite H3, H4, <- El, <- Er, <- En. reflexivity.
Qed.

Lemma C1_yaw_net_change_witness :
  exists w1 w2,
    main_loop [[right_repeat; KeyEvent GLFW_KEY_LEFT 0 GLFW_PRESS 0; right_repeat]; []]
      loop_entry = Still_open w1 /\
    main_loop [[KeyEvent GLFW_KEY_LEFT 0 GLFW_PRESS 0; right_repeat; right_repeat]; []]
      loop_entry = Still_open w2 /\
    holds (angleY loop_entry) (Qmake 0 2) /\
    holds (angleY w1) (Qmake 0 2 + 5 * inject_Z (2 - 1) + Qmake 1 2 * inject_Z 2) /\
    angleY w2 = angleY w1.
Proof.
  apply (C1_yaw_net_change
           [[right_repeat; KeyEvent GLFW_KEY_LEFT 0 GLFW_PRESS 0; right_repeat]; []]
           [[KeyEvent GLFW_KEY_LEFT 0 GLFW_PRESS 0; right_repeat; right_repeat]; []]
           loop_entry 0).
  - reflexivity.
  - reflexivity.
  - reflexivity.
  - vm_compute. discriminate.
  - constructor; [|constructor; [apply perm_nil|constructor]].
    apply Permutation_sym, (Permutation_cons_app [right_repeat] [right_repeat]).
    reflexivity.
Defined.

(** C1 without the bound fails: one frame and then 1677722 rotate-right repeats
    leave the yaw at 8388610, not at 5 * 1677722 + 0.5 * 1 = 8388610.5. *)
Lemma C1_counterexample :
  ~ holds
      (angleY (world_of
         (main_loop [repeat right_repeat (Z.to_nat 1677722)] loop_entry)))
      (5 * inject_Z 1677722 + Qmake 1 2 * inject_Z 1).
Proof.
  assert (Hn : Z.to_nat 1677722 = (Z.to_nat 1677721 + 1)%nat) by lia.
  rewrite Hn, turn_saturates by lia.
  vm_compute. discriminate.
Qed.

(** C7: from pitch 0 and yaw 0, one rotate-up press and then two frames
    without further input give pitch -5.0 and yaw 1.0. *)
Theorem C7_up_then_two_frames (scancode mode : Z) (w : World) :
  angleX w = zero -> angleY w = zero -> should_close w = false ->
  exists w',
    main_loop [[]; []] (key_callback GLFW_KEY_UP scancode GLFW_PRESS mode w)
      = Still_open w' /\
    angleX w' = neg five /\ angleY w' = one /\
    holds (angleX w') (-5) /\ holds (angleY w') 1.
Proof.
  destruct w as [ax ay closing l]. cbn [angleX angleY should_close]. intros -> -> ->.
  rewrite key_callback_spec. cbn [angleX angleY should_close calls].
  change ((GLFW_KEY_UP =? GLFW_KEY_UP) && pressed_or_repeated GLFW_PRESS) with true.
  change ((GLFW_KEY_UP =? GLFW_KEY_LEFT) && pressed_or_repeated GLFW_PRESS) with false.
  change ((GLFW_KEY_UP =? GLFW_KEY_RIGHT) && pressed_or_repeated GLFW_PRESS) with false.
  change ((GLFW_KEY_UP =? GLFW_KEY_ESCAPE) && (GLFW_PRESS =? GLFW_PRESS)) with false.
  cbv iota.
  rewrite !main_loop_cons, main_loop_nil.
  rewrite !iteration_spec. cbn [fold_left angleX angleY should_close calls].
  eexists. split; [reflexivity|].
  cbn [angleX angleY]. repeat split; vm_compute; reflexivity.
Qed.

Lemma C7_up_then_two_frames_witness :
  exists w',
    main_loop [[]; []] (key_callback GLFW_KEY_UP 111 GLFW_PRESS 0 world0)
      = Still_open w' /\
    angleX w' = neg five /\ angleY w' = one /\
    holds (angleX w') (-5) /\ holds (angleY w') 1.
Proof.
  apply (C7_up_then_two_frames 111 0 world0); reflexivity.
Defined.

(** C6: the quit key with action release changes nothing, neither the close
    flag nor the angles, and the loop goes on as if no event had come; the
    close flag after a key event is the flag before, or the event is the
    quit key with action press. *)
Theorem C6_escape_release (key scancode action mode : Z) (w : World)
    (rest : list (list event)) :
  key_callback GLFW_KEY_ESCAPE scancode GLFW_RELEASE mode w = w /\
  main_loop ([KeyEvent GLFW_KEY_ESCAPE scancode GLFW_RELEASE mode] :: rest) w
    = main_loop ([] :: rest) w /\
  should_close (key_callback key scancode action mode w)
    = should_close w || ((key =? GLFW_KEY_ESCAPE) && (action =? GLFW_PRESS)).
Proof.
  assert (H : forall v, key_callback GLFW_KEY_ESCAPE scancode GLFW_RELEASE mode v = v).
  { intros v. rewrite key_callback_spec. destruct v; reflexivity. }
  split; [apply H|]. split.
  - rewrite !main_loop_cons. unfold iteration, do_glfwPollEvents.
    cbn [fold_left dispatch]. rewrite H. reflexivity.
  - rewrite key_callback_spec. cbn [should_close].
    destruct ((key =? GLFW_KEY_ESCAPE) && (action =? GLFW_PRESS)), (should_close w);
      reflexivity.
Qed.

(** C5: when a poll delivers the quit key with action press, the loop is
    left at once, after the frame that preceded that poll and no other, and
    whatever input follows is never looked at; and the loop is left only
    when the close flag is up, which only the quit press or the backend's
    close request raise. *)
Theorem C5_quit_terminates (pre post ps : list (list event)) (queue : list event)
    (w : World) (scancode mods : Z) :
  should_close w = false ->
  quiet pre = true ->
  In (KeyEvent GLFW_KEY_ESCAPE scancode GLFW_PRESS mods) queue ->
  exists w',
    main_loop (pre ++ queue :: post) w = Left_loop w' /\
    main_loop (pre ++ [queue]) w = Left_loop w' /\
    frames_rendered w' = (frames_rendered w + List.length pre + 1)%nat /\
    is_left (main_loop ps w) = negb (quiet ps).
Proof.
  intros Hc Hq Hin.
  destruct (loop_quiet_frames pre w Hc Hq) as (w1 & H1 & H2 & H3).
  destruct (iteration_state queue w1) as [I1 I2].
  rewrite H2, (existsb_quit_press queue scancode mods Hin) in I1. simpl in I1.
  exists (emit glfwWindowShouldClose (iteration queue w1)).
  rewrite !main_loop_app, H1, !main_loop_cons, H2.
  rewrite !(main_loop_closed _ _ I1).
  repeat split.
  - rewrite frames_rendered_emit, I2, H3. simpl. lia.
  - rewrite is_left_spec, Hc. reflexivity.
Qed.

Lemma C5_quit_terminates_witness :
  exists w',
    main_loop ([[right_repeat]] ++ [right_repeat; KeyEvent GLFW_KEY_ESCAPE 1 GLFW_PRESS 0]
                 :: [[]; [right_repeat]]) loop_entry = Left_loop w' /\
    main_loop ([[right_repeat]] ++ [[right_repeat; KeyEvent GLFW_KEY_ESCAPE 1 GLFW_PRESS 0]])
      loop_entry = Left_loop w' /\
    frames_rendered w' = (frames_rendered loop_entry + 1 + 1)%nat /\
    is_left (main_loop [[]; [CloseRequest]; []] loop_entry)
      = negb (quiet [[]; [CloseRequest]; []]).
Proof.
  apply (C5_quit_terminates [[right_repeat]] [[]; [right_repeat]] [[]; [CloseRequest]; []]
           [right_repeat; KeyEvent GLFW_KEY_ESCAPE 1 GLFW_PRESS 0] loop_entry 1 0).
  - reflexivity.
  - reflexivity.
  - simpl. right. left. reflexivity.
Defined.

(** C9: when [glfwInit] fails, [main] returns -1 having made no other call;
    when the window cannot be created, [main] calls [glfwTerminate] and then
    returns -1. *)
Theorem C9_startup_failures (window : bool) (ps : list (list event)) :
  main (mkBackend false window ps) = Returned (-1) (mkWorld zero zero false [glfwInit]) /\
  main (mkBackend true false ps)
    = Returned (-1)
        (mkWorld zero zero false
           [glfwInit;
            glfwCreateWindow 800 600 "Simple 3D Game - Hello World";
            glfwTerminate]) /\
  -1 <> 0.
Proof. repeat split. discriminate. Qed.

(** *** The view transform *)

Lemma B2R_zero : B2R zero = 0%R.
Proof. unfold B2R. simpl. lra. Qed.

Lemma B2R_one : B2R one = 1%R.
Proof.
  unfold B2R. replace (ulps one) with (Some (2 ^ 149)) by reflexivity.
  field. apply not_0_IZR. discriminate.
Qed.

Lemma B2R_neg_three : B2R (neg three) = (-3)%R.
Proof.
  unfold B2R. replace (ulps (neg three)) with (Some (-3 * 2 ^ 149)) by reflexivity.
  rewrite mult_IZR. field. apply not_0_IZR. discriminate.
Qed.

(** A rotation by no angle is the identity, about any axis. *)
Lemma rotation_0 (x y z : R) : mat_eq (rotation 0 x y z) mat_id.
Proof.
  intros i j. unfold rotation.
  replace (0 * PI / 180)%R with 0%R by lra.
  rewrite cos_0, sin_0. destruct i, j; simpl; ring.
Qed.

Lemma mat_mul_id_r (A B : mat) : mat_eq B mat_id -> mat_eq (mat_mul A B) A.
Proof.
  intros H i j. unfold mat_mul. rewrite !H. destruct i, j; simpl; ring.
Qed.

Lemma mat_mul_id_l (A : mat) : mat_eq (mat_mul mat_id A) A.
Proof. intros i j. unfold mat_mul. destruct i, j; simpl; ring. Qed.

Lemma mat_eq_trans (A B C : mat) : mat_eq A B -> mat_eq B C -> mat_eq A C.
Proof. intros H1 H2 i j. now rewrite H1. Qed.

Lemma run_matrices_app (cs cs' : list call) (st : gl_matrices) :
  run_matrices (cs ++ cs') st = run_matrices cs' (run_matrices cs st).
Proof. apply fold_left_app. Qed.

(** Drawing and clearing leave the matrices alone. *)
Lemma run_matrices_other (cs : list call) (st : gl_matrices) :
  filter is_matrix_call cs = [] -> run_matrices cs st = st.
Proof.
  revert st. induction cs as [|c cs IH]; intros st H; [reflexivity|].
  simpl in H. destruct (is_matrix_call c) eqn:E; [discriminate|].
  unfold run_matrices. cbn [fold_left]. rewrite <- (IH st H) at 2.
  destruct c; try discriminate; reflexivity.
Qed.

Lemma view_calls_matrix (ax ay : float32) (st : gl_matrices) :
  matrix_mode st = GL_MODELVIEW ->
  run_matrices (view_calls ax ay) st =
  mkMatrices GL_MODELVIEW
    (mat_mul
       (mat_mul
          (mat_mul mat_id (translation (B2R zero) (B2R zero) (B2R (neg three))))
          (rotation (B2R ax) (B2R one) (B2R zero) (B2R zero)))
       (rotation (B2R ay) (B2R zero) (B2R one) (B2R zero))).
Proof.
  intros H. unfold run_matrices, view_calls. cbn [fold_left matrix_step].
  unfold on_current. cbn [matrix_mode modelview]. rewrite H. reflexivity.
Qed.

(** C3: every frame issues, of the matrix calls, exactly the reset to the
    identity, the translation by (0, 0, -3), the rotation by the pitch
    about the x axis and the rotation by the yaw about the y axis, in this
    order, so that the model-view matrix it draws with is the product of
    the three in this order; at pitch 0 and yaw 0 this is the translation
    by (0, 0, -3) alone. *)
Theorem C3_view_transform (w : World) (st : gl_matrices) :
  matrix_mode st = GL_MODELVIEW ->
  calls (frame w) = calls w ++ frame_calls (angleX w) (angleY w) /\
  filter is_matrix_call (frame_calls (angleX w) (angleY w))
    = [ glLoadIdentity;
        glTranslatef zero zero (neg three);
        glRotatef (angleX w) one zero zero;
        glRotatef (angleY w) zero one zero ] /\
  mat_eq (modelview (run_matrices (frame_calls (angleX w) (angleY w)) st))
    (mat_mul (mat_mul (mat_mul mat_id (translation 0 0 (-3)))
                (rotation (B2R (angleX w)) 1 0 0))
       (rotation (B2R (angleY w)) 0 1 0)) /\
  mat_eq (modelview (run_matrices (frame_calls zero zero) st)) (translation 0 0 (-3)).
Proof.
  intros Hm.
  assert (Hrun : forall ax ay,
    run_matrices (frame_calls ax ay) st = run_matrices (view_calls ax ay) st).
  { intros ax ay. unfold frame_calls. rewrite !run_matrices_app.
    rewrite (run_matrices_other [_; _]) by reflexivity.
    rewrite (run_matrices_other drawCube_calls) by reflexivity.
    apply run_matrices_other. reflexivity. }
  split; [rewrite frame_spec; reflexivity|].
  split; [reflexivity|].
  rewrite !Hrun, !view_calls_matrix by assumption. cbn [modelview].
  rewrite B2R_zero, B2R_one, B2R_neg_three.
  split; [intros i j; reflexivity|].
  eapply mat_eq_trans; [apply mat_mul_id_r, rotation_0|].
  eapply mat_eq_trans; [apply mat_mul_id_r, rotation_0|].
  apply mat_mul_id_l.
Qed.

Lemma loop_entry_matrix_mode :
  matrix_mode (run_matrices (calls loop_entry) gl_initial) = GL_MODELVIEW.
Proof. reflexivity. Qed.

Lemma C3_view_transform_witness :
  calls (frame loop_entry)
    = calls loop_entry ++ frame_calls (angleX loop_entry) (angleY loop_entry) /\
  filter is_matrix_call (frame_calls (angleX loop_entry) (angleY loop_entry))
    = [ glLoadIdentity;
        glTranslatef zero zero (neg three);
        glRotatef (angleX loop_entry) one zero zero;
        glRotatef (angleY loop_entry) zero one zero ] /\
  mat_eq (modelview (run_matrices (frame_calls (angleX loop_entry) (angleY loop_entry))
                       (run_matrices (calls loop_entry) gl_initial)))
    (mat_mul (mat_mul (mat_mul mat_id (translation 0 0 (-3)))
                (rotation (B2R (angleX loop_entry)) 1 0 0))
       (rotation (B2R (angleY loop_entry)) 0 1 0)) /\
  mat_eq (modelview (run_matrices (frame_calls zero zero)
                       (run_matrices (calls loop_entry) gl_initial)))
    (translation 0 0 (-3)).
Proof.
  apply (C3_view_transform loop_entry (run_matrices (calls loop_entry) gl_initial)).
  exact loop_entry_matrix_mode.
Defined.

(** *** The cube *)

Lemma float32_eqb_eq (x y : float32) : float32_eqb x y = true <-> x = y.
Proof.
  split.
  - destruct x as [s|s| |s m e], y as [s'|s'| |s' m' e']; simpl; try discriminate;
      try (intros H; apply eqb_prop in H; congruence); try reflexivity.
    intros H. apply andb_true_iff in H. destruct H as [H He].
    apply andb_true_iff in H. destruct H as [Hs Hm].
    apply eqb_prop in Hs. apply Pos.eqb_eq in Hm. apply Z.eqb_eq in He. congruence.
  - intros <-. destruct x as [s|s| |s m e]; simpl; try reflexivity;
      try (destruct s; reflexivity).
    rewrite eqb_reflx, Pos.eqb_refl, Z.eqb_refl. reflexivity.
Qed.

(** C4: one call of [drawCube] makes the calls of [drawCube_calls], which
    are [glBegin(GL_QUADS)], then for each of six quadrilaterals one
    [glColor3f] followed by its four [glVertex3f], then [glEnd]; the six
    quadrilaterals are, in this order, the front, back, top, bottom, right
    and left faces, each of four vertices of one colour, and the six
    colours differ pairwise. *)
Theorem C4_six_flat_faces (w : World) :
  calls (drawCube w) = calls w ++ drawCube_calls /\
  drawCube_calls
    = glBegin GL_QUADS
      :: flat_map (fun q => face_calls (quad_color q) (map position q))
           (quads drawCube_calls)
      ++ [glEnd] /\
  List.length (quads drawCube_calls) = 6%nat /\
  forallb (fun q => (List.length q =? 4)%nat) (quads drawCube_calls) = true /\
  all2 on_face face_order (quads drawCube_calls) = true /\
  forallb (fun q => flat (quad_color q) q) (quads drawCube_calls) = true /\
  pairwise_distinct (map quad_color (quads drawCube_calls)) = true.
Proof.
  split.
  - unfold drawCube. rewrite emit_all_spec. reflexivity.
  - repeat split; vm_compute; reflexivity.
Qed.


(** *** The clear colour *)

(** The mask of the frame's [glClear] selects both buffers. *)
Lemma frame_clear_mask :
  clears_color (Z.lor GL_COLOR_BUFFER_BIT GL_DEPTH_BUFFER_BIT) = true /\
  clears_depth (Z.lor GL_COLOR_BUFFER_BIT GL_DEPTH_BUFFER_BIT) = true.
Proof. split; reflexivity. Qed.

(** A frame clears with the colour that is current when it starts: its own
    [glClearColor] comes after its [glClear]. *)
Lemma frame_clear_colors (current : rgba) (ax ay : float32) :
  clear_colors current (frame_calls ax ay) = [current].
Proof. reflexivity. Qed.

(** The first call of a frame is the clear: nothing is drawn before it. *)
Lemma frame_starts_with_clear (ax ay : float32) :
  hd_error (frame_calls ax ay)
  = Some (glClear (Z.lor GL_COLOR_BUFFER_BIT GL_DEPTH_BUFFER_BIT)).
Proof. reflexivity. Qed.

(** From the second frame on the clear colour is the background. *)
Lemma later_frames_clear_background (current : rgba) (ax ay ax' ay' : float32) :
  clear_colors current (frame_calls ax ay ++ frame_calls ax' ay') = [current; background].
Proof. reflexivity. Qed.

(** C8 fails on the first frame: [glClear] is called before the first
    [glClearColor], so the first clear fills the colour buffer with the
    clear colour of a fresh context, (0, 0, 0, 0), and only the later ones
    with the background (0.1, 0.1, 0.15, 1). *)
Theorem C8_first_clear_uses_default :
  exists w,
    main (mkBackend true true [[]; [CloseRequest]]) = Returned 0 w /\
    clear_colors initial_clear_color (calls w) = [initial_clear_color; background] /\
    initial_clear_color <> background.
Proof.
  eexists. split; [reflexivity|]. split; [reflexivity|]. discriminate.
Qed.

(** * Further properties of the code *)

(** ** The key callback *)

(** X1: a key event the callback does not test for changes nothing: any key
    other than the five, any action other than press or repeat, and also
    the quit key with action repeat. *)
Theorem X1_key_callback_ignores (key scancode action mode : Z) (w : World) :
  known_key key && pressed_or_repeated action = false ->
  key_callback key scancode action mode w = w /\
  key_callback GLFW_KEY_ESCAPE scancode GLFW_REPEAT mode w = w.
Proof.
  intros H. split.
  - rewrite key_callback_spec. unfold known_key in H.
    assert (Hp : (action =? GLFW_PRESS) = true -> pressed_or_repeated action = true)
      by (unfold pressed_or_repeated; intros ->; reflexivity).
    destruct (key =? GLFW_KEY_ESCAPE), (key =? GLFW_KEY_LEFT), (key =? GLFW_KEY_RIGHT),
      (key =? GLFW_KEY_UP), (key =? GLFW_KEY_DOWN), (pressed_or_repeated action);
      simpl in H; try discriminate; destruct (action =? GLFW_PRESS);
      try (specialize (Hp eq_refl); discriminate); destruct w; reflexivity.
  - rewrite key_callback_spec. destruct w; reflexivity.
Qed.

Lemma X1_key_callback_ignores_witness :
  key_callback 65 30 GLFW_PRESS 0 loop_entry = loop_entry /\
  key_callback GLFW_KEY_ESCAPE 30 GLFW_REPEAT 0 loop_entry = loop_entry.
Proof.
  apply (X1_key_callback_ignores 65 30 GLFW_PRESS 0 loop_entry). reflexivity.
Defined.

Lemma sub_five_of_half (k : Z) :
  Z.abs k <= 2 ^ 24 -> Z.abs (k - 10) <= 2 ^ 24 ->
  sub (of_half k) five = of_half (k - 10).
Proof.
  intros H H'. rewrite sub_add_neg, neg_five_of_half, add_of_half by lia.
  f_equal.
Qed.

Lemma add_five_of_half (k : Z) :
  Z.abs k <= 2 ^ 24 -> Z.abs (k + 10) <= 2 ^ 24 ->
  add (of_half k) five = of_half (k + 10).
Proof.
  intros H H'. rewrite five_of_half. apply add_of_half; lia.
Qed.

(** X2: rotate-left then rotate-right, and rotate-up then rotate-down, in
    either order, bring the program back to the very state it was in, when
    the angles are half-integers of magnitude at most 2^23 - 5. *)
Theorem X2_opposite_keys_cancel (s1 s2 a1 a2 m1 m2 kx ky : Z) (w : World) :
  pressed_or_repeated a1 = true ->
  pressed_or_repeated a2 = true ->
  angleX w = of_half kx -> Z.abs kx + 10 <= 2 ^ 24 ->
  angleY w = of_half ky -> Z.abs ky + 10 <= 2 ^ 24 ->
  key_callback GLFW_KEY_RIGHT s2 a2 m2 (key_callback GLFW_KEY_LEFT s1 a1 m1 w) = w /\
  key_callback GLFW_KEY_LEFT s2 a2 m2 (key_callback GLFW_KEY_RIGHT s1 a1 m1 w) = w /\
  key_callback GLFW_KEY_DOWN s2 a2 m2 (key_callback GLFW_KEY_UP s1 a1 m1 w) = w /\
  key_callback GLFW_KEY_UP s2 a2 m2 (key_callback GLFW_KEY_DOWN s1 a1 m1 w) = w.
Proof.
  intros H1 H2 Hx Bx Hy By.
  destruct w as [ax ay closing l]. cbn [angleX angleY] in Hx, Hy. subst ax ay.
  rewrite !key_callback_spec. cbn [angleX angleY should_close calls].
  rewrite H1, H2.
  change (GLFW_KEY_LEFT =? GLFW_KEY_LEFT) with true.
  change (GLFW_KEY_RIGHT =? GLFW_KEY_RIGHT) with true.
  change (GLFW_KEY_UP =? GLFW_KEY_UP) with true.
  change (GLFW_KEY_DOWN =? GLFW_KEY_DOWN) with true.
  change (GLFW_KEY_LEFT =? GLFW_KEY_RIGHT) with false.
  change (GLFW_KEY_RIGHT =? GLFW_KEY_LEFT) with false.
  change (GLFW_KEY_UP =? GLFW_KEY_DOWN) with false.
  change (GLFW_KEY_DOWN =? GLFW_KEY_UP) with false.
  change (GLFW_KEY_LEFT =? GLFW_KEY_UP) with false.
  change (GLFW_KEY_LEFT =? GLFW_KEY_DOWN) with false.
  change (GLFW_KEY_RIGHT =? GLFW_KEY_UP) with false.
  change (GLFW_KEY_RIGHT =? GLFW_KEY_DOWN) with false.
  change (GLFW_KEY_UP =? GLFW_KEY_LEFT) with false.
  change (GLFW_KEY_UP =? GLFW_KEY_RIGHT) with false.
  change (GLFW_KEY_DOWN =? GLFW_KEY_LEFT) with false.
  change (GLFW_KEY_DOWN =? GLFW_KEY_RIGHT) with false.
  change (GLFW_KEY_LEFT =? GLFW_KEY_ESCAPE) with false.
  change (GLFW_KEY_RIGHT =? GLFW_KEY_ESCAPE) with false.
  change (GLFW_KEY_UP =? GLFW_KEY_ESCAPE) with false.
  change (GLFW_KEY_DOWN =? GLFW_KEY_ESCAPE) with false.
  cbn [andb].
  repeat (rewrite ?sub_five_of_half, ?add_five_of_half by lia).
  replace (kx - 10 + 10) with kx by lia. replace (kx + 10 - 10) with kx by lia.
  replace (ky - 10 + 10) with ky by lia. replace (ky + 10 - 10) with ky by lia.
  repeat split.
Qed.

Lemma X2_opposite_keys_cancel_witness :
  key_callback GLFW_KEY_RIGHT 2 GLFW_REPEAT 0
    (key_callback GLFW_KEY_LEFT 1 GLFW_PRESS 0 loop_entry) = loop_entry /\
  key_callback GLFW_KEY_LEFT 2 GLFW_REPEAT 0
    (key_callback GLFW_KEY_RIGHT 1 GLFW_PRESS 0 loop_entry) = loop_entry /\
  key_callback GLFW_KEY_DOWN 2 GLFW_REPEAT 0
    (key_callback GLFW_KEY_UP 1 GLFW_PRESS 0 loop_entry) = loop_entry /\
  key_callback GLFW_KEY_UP 2 GLFW_REPEAT 0
    (key_callback GLFW_KEY_DOWN 1 GLFW_PRESS 0 loop_entry) = loop_entry.
Proof.
  apply (X2_opposite_keys_cancel 1 2 GLFW_PRESS GLFW_REPEAT 0 0 0 0 loop_entry);
    try reflexivity; vm_compute; discriminate.
Defined.

(** ** The pitch *)

Lemma dispatch_angleX (w : World) (ev : event) :
  angleX (dispatch w ev) =
  if turns_up ev then sub (angleX w) five
  else if turns_down ev then add (angleX w) five
  else angleX w.
Proof.
  destruct ev as [key sc action mods|]; simpl.
  - rewrite key_callback_spec. reflexivity.
  - destruct w; reflexivity.
Qed.

Lemma up_down_exclusive (ev : event) : turns_up ev = true -> turns_down ev = false.
Proof.
  destruct ev as [key sc action mods|]; simpl; [|discriminate].
  unfold GLFW_KEY_UP, GLFW_KEY_DOWN.
  destruct (Z.eqb_spec key 265) as [->|]; [reflexivity|discriminate].
Qed.

Lemma poll_angleX (queue : list event) :
  forall (w : World) (k : Z),
    angleX w = of_half k ->
    Z.abs k + 10 * (count turns_up queue + count turns_down queue) <= 2 ^ 24 ->
    angleX (fold_left dispatch queue w) =
    of_half (k + 10 * (count turns_down queue - count turns_up queue)).
Proof.
  induction queue as [|ev queue IH]; intros w k Hk Hb.
  - simpl. rewrite Hk. f_equal. unfold count. simpl. lia.
  - rewrite !count_cons in Hb. rewrite !count_cons.
    pose proof (count_nonneg turns_up queue).
    pose proof (count_nonneg turns_down queue).
    cbn [fold_left].
    pose proof (dispatch_angleX w ev) as Hd.
    pose proof (up_down_exclusive ev) as Hx.
    destruct (turns_up ev) eqn:Eu.
    + rewrite Hx in * by reflexivity.
      rewrite (IH (dispatch w ev) (k - 10)).
      * f_equal; lia.
      * rewrite Hd, Hk. apply sub_five_of_half; lia.
      * lia.
    + destruct (turns_down ev) eqn:Ed.
      * rewrite (IH (dispatch w ev) (k + 10)).
        -- f_equal; lia.
        -- rewrite Hd, Hk. apply add_five_of_half; lia.
        -- lia.
      * rewrite (IH (dispatch w ev) k).
        -- f_equal; lia.
        -- rewrite Hd. assumption.
        -- lia.
Qed.

Lemma iteration_angleX (queue : list event) (w : World) (k : Z) :
  angleX w = of_half k ->
  Z.abs k + 10 * (count turns_up queue + count turns_down queue) <= 2 ^ 24 ->
  angleX (iteration queue w) =
  of_half (k + 10 * (count turns_down queue - count turns_up queue)).
Proof.
  intros Hk Hb. rewrite iteration_spec. apply poll_angleX; assumption.
Qed.

Lemma loop_angleX (ps : list (list event)) :
  forall (w : World) (k : Z),
    should_close w = false ->
    quiet ps = true ->
    angleX w = of_half k ->
    Z.abs k + 10 * (total turns_up ps + total turns_down ps) <= 2 ^ 24 ->
    exists w',
      main_loop ps w = Still_open w' /\
      angleX w' = of_half (k + 10 * (total turns_down ps - total turns_up ps)).
Proof.
  induction ps as [|queue ps IH]; intros w k Hc Hq Hk Hb.
  - exists w. rewrite main_loop_nil, Hc. split; [reflexivity|].
    rewrite Hk. f_equal. unfold total, count. simpl. lia.
  - rewrite !total_cons in Hb. rewrite !total_cons.
    pose proof (total_nonneg turns_up ps).
    pose proof (total_nonneg turns_down ps).
    pose proof (count_nonneg turns_up queue).
    pose proof (count_nonneg turns_down queue).
    simpl in Hq. apply andb_true_iff in Hq. destruct Hq as [Hq1 Hq2].
    apply negb_true_iff in Hq1.
    rewrite main_loop_cons, Hc.
    destruct (IH (iteration queue w)
                 (k + 10 * (count turns_down queue - count turns_up queue)))
      as (w' & R1 & R2).
    + rewrite (proj1 (iteration_state queue w)), Hc, Hq1. reflexivity.
    + assumption.
    + apply iteration_angleX; [assumption | lia].
    + lia.
    + exists w'. split; [assumption|]. rewrite R2. f_equal; lia.
Qed.

(** X3: over a run in which nothing closes the window, from a pitch of
    [k / 2], the pitch changes by exactly 5 * (downs - ups), whatever the
    number of frames and the order of the events inside each poll, provided
    |k| + 10 * (ups + downs) <= 2^24: frames and the other keys never move
    the pitch. *)
Theorem X3_pitch_net_change (ps ps' : list (list event)) (w : World) (k : Z) :
  should_close w = false ->
  quiet ps = true ->
  angleX w = of_half k ->
  Z.abs k + 10 * (total turns_up ps + total turns_down ps) <= 2 ^ 24 ->
  Forall2 (@Permutation event) ps ps' ->
  exists w1 w2,
    main_loop ps w = Still_open w1 /\
    main_loop ps' w = Still_open w2 /\
    holds (angleX w1)
      (Qmake k 2 + 5 * inject_Z (total turns_down ps - total turns_up ps)) /\
    angleX w2 = angleX w1.
Proof.
  intros Hc Hq Hk Hb Hp.
  pose proof (total_nonneg turns_up ps) as Hu.
  pose proof (total_nonneg turns_down ps) as Hd.
  destruct (polls_perm turns_up ps ps' Hp) as (Eu & _ & Eq).
  destruct (polls_perm turns_down ps ps' Hp) as (Ed & _ & _).
  destruct (loop_angleX ps w k Hc Hq Hk Hb) as (w1 & H1 & H3).
  destruct (loop_angleX ps' w k Hc) as (w2 & H2 & H4);
    [congruence | assumption | rewrite <- Eu, <- Ed; assumption |].
  exists w1, w2. repeat split; try assumption.
  - rewrite H3. eapply holds_ext; [|apply holds_of_half; lia].
    unfold Qeq, Qplus, Qmult, inject_Z. cbn [Qnum Qden]. lia.
  - rewrite H3, H4, <- Eu, <- Ed. reflexivity.
Qed.

Lemma X3_pitch_net_change_witness :
  exists w1 w2,
    main_loop [[KeyEvent GLFW_KEY_UP 0 GLFW_PRESS 0; right_repeat;
                KeyEvent GLFW_KEY_DOWN 0 GLFW_REPEAT 0;
                KeyEvent GLFW_KEY_DOWN 0 GLFW_REPEAT 0]; []]
      loop_entry = Still_open w1 /\
    main_loop [[KeyEvent GLFW_KEY_DOWN 0 GLFW_REPEAT 0; right_repeat;
                KeyEvent GLFW_KEY_DOWN 0 GLFW_REPEAT 0;
                KeyEvent GLFW_KEY_UP 0 GLFW_PRESS 0]; []]
      loop_entry = Still_open w2 /\
    holds (angleX w1) (Qmake 0 2 + 5 * inject_Z (2 - 1)) /\
    angleX w2 = angleX w1.
Proof.
  apply (X3_pitch_net_change
           [[KeyEvent GLFW_KEY_UP 0 GLFW_PRESS 0; right_repeat;
             KeyEvent GLFW_KEY_DOWN 0 GLFW_REPEAT 0;
             KeyEvent GLFW_KEY_DOWN 0 GLFW_REPEAT 0]; []]
           [[KeyEvent GLFW_KEY_DOWN 0 GLFW_REPEAT 0; right_repeat;
             KeyEvent GLFW_KEY_DOWN 0 GLFW_REPEAT 0;
             KeyEvent GLFW_KEY_UP 0 GLFW_PRESS 0]; []]
           loop_entry 0).
  - reflexivity.
  - reflexivity.
  - reflexivity.
  - vm_compute. discriminate.
  - constructor; [|constructor; [apply perm_nil|constructor]].
    apply (Permutation_trans
             (l' := [KeyEvent GLFW_KEY_DOWN 0 GLFW_REPEAT 0; right_repeat;
                     KeyEvent GLFW_KEY_UP 0 GLFW_PRESS 0;
                     KeyEvent GLFW_KEY_DOWN 0 GLFW_REPEAT 0])).
    + apply (Permutation_trans
               (l' := [right_repeat; KeyEvent GLFW_KEY_UP 0 GLFW_PRESS 0;
                       KeyEvent GLFW_KEY_DOWN 0 GLFW_REPEAT 0;
                       KeyEvent GLFW_KEY_DOWN 0 GLFW_REPEAT 0])).
      * apply perm_swap.
      * apply Permutation_sym.
        apply (Permutation_cons_app [right_repeat; KeyEvent GLFW_KEY_UP 0 GLFW_PRESS 0]
                 [KeyEvent GLFW_KEY_DOWN 0 GLFW_REPEAT 0]).
        reflexivity.
    + do 2 apply perm_skip. apply perm_swap.
Defined.

(** ** The automatic rotation *)

(** X4: from yaw 0, after [n] iterations of the loop without key input the
    yaw is [min n 2^24 / 2], for every [n]: the automatic rotation adds 0.5
    per frame up to 8388608 and then stops for good, because
    8388608 + 0.5 rounds to 8388608. *)
Theorem X4_idle_yaw_saturates (n : nat) (w : World) :
  angleY w = zero -> should_close w = false ->
  holds (angleY (world_of (main_loop (repeat [] n) w)))
        (Qmake 1 2 * inject_Z (Z.min (Z.of_nat n) (2 ^ 24))).
Proof.
  intros Hy Hc.
  destruct (Z_le_gt_dec (Z.of_nat n) (2 ^ 24)) as [Hle|Hgt].
  - destruct (idle_angleY n w 0 Hc Hy) as (w' & H1 & _ & H3); [lia|].
    rewrite H1. cbn [world_of]. rewrite H3, Z.min_l by assumption.
    apply holds_ext with (q := Qmake (0 + Z.of_nat n) 2).
    + unfold Qeq, Qmult, inject_Z. cbn [Qnum Qden]. lia.
    + apply holds_of_half. lia.
  - assert (Hsplit : exists n0 m, n = (n0 + m)%nat /\ Z.of_nat n0 = 16777216).
    { exists (Z.to_nat 16777216), (n - Z.to_nat 16777216)%nat. split; lia. }
    destruct Hsplit as (n0 & m & -> & Hn0).
    rewrite repeat_app, main_loop_app.
    destruct (idle_angleY n0 w 0 Hc Hy) as (w' & H1 & H2 & H3);
      [rewrite Hn0; simpl; lia|].
    rewrite H1, idle_stuck; [|assumption|rewrite H3, Hn0; reflexivity].
    rewrite Z.min_r by lia. vm_compute. reflexivity.
Qed.

Lemma X4_idle_yaw_saturates_witness :
  holds (angleY (world_of (main_loop (repeat [] 5) loop_entry)))
        (Qmake 1 2 * inject_Z (Z.min (Z.of_nat 5) (2 ^ 24))).
Proof.
  apply (X4_idle_yaw_saturates 5 loop_entry); reflexivity.
Defined.

(** ** The calls of a run *)

(** What the loop never calls: a class [f] of calls that contains neither
    the loop's own three GLFW calls nor any call of a frame does not occur
    in what a run of the loop adds to the log. *)
Section Avoid.

Variable f : call -> bool.
Hypothesis f_should_close : f glfwWindowShouldClose = false.
Hypothesis f_poll : f glfwPollEvents = false.
Hypothesis f_set_close : f (glfwSetWindowShouldClose GL_TRUE) = false.
Hypothesis f_frame : forall ax ay, filter f (frame_calls ax ay) = [].

Lemma dispatch_avoid (w : World) (ev : event) :
  exists cs, calls (dispatch w ev) = calls w ++ cs /\ filter f cs = [].
Proof.
  destruct ev as [key sc action mods|]; simpl.
  - rewrite key_callback_spec. simpl.
    destruct ((key =? GLFW_KEY_ESCAPE) && (action =? GLFW_PRESS)).
    + eexists. split; [reflexivity|]. simpl. rewrite f_set_close. reflexivity.
    + exists []. now rewrite app_nil_r.
  - exists []. destruct w; simpl. now rewrite app_nil_r.
Qed.

Lemma poll_avoid (queue : list event) :
  forall w : World,
    exists cs, calls (fold_left dispatch queue w) = calls w ++ cs /\ filter f cs = [].
Proof.
  induction queue as [|ev queue IH]; intros w; simpl.
  - exists []. now rewrite app_nil_r.
  - destruct (IH (dispatch w ev)) as (cs & H1 & H2).
    destruct (dispatch_avoid w ev) as (cs' & H3 & H4).
    exists (cs' ++ cs). rewrite H1, H3, <- app_assoc, filter_app, H2, H4. auto.
Qed.

Lemma iteration_avoid (queue : list event) (w : World) :
  exists cs, calls (iteration queue w) = calls w ++ cs /\ filter f cs = [].
Proof.
  rewrite iteration_spec.
  match goal with |- context [fold_left dispatch queue ?v] =>
    destruct (poll_avoid queue v) as (cs & -> & Hcs) end.
  cbn [calls]. eexists. rewrite <- app_assoc. split; [reflexivity|].
  rewrite filter_app, Hcs, app_nil_r.
  cbn [filter]. rewrite f_should_close, filter_app, f_frame.
  simpl. rewrite f_poll. reflexivity.
Qed.

Lemma loop_avoid (ps : list (list event)) :
  forall w : World,
    exists cs,
      calls (world_of (main_loop ps w)) = calls w ++ cs /\ filter f cs = [].
Proof.
  induction ps as [|queue ps IH]; intros w.
  - rewrite main_loop_nil. destruct w as [ax ay [|] l]; simpl.
    + eexists. split; [reflexivity|]. simpl. rewrite f_should_close. reflexivity.
    + exists []. now rewrite app_nil_r.
  - rewrite main_loop_cons. destruct (should_close w) eqn:Hc.
    + destruct w as [ax ay closing l]; simpl.
      eexists. split; [reflexivity|]. simpl. rewrite f_should_close. reflexivity.
    + destruct (IH (iteration queue w)) as (cs & H1 & H2).
      destruct (iteration_avoid queue w) as (cs' & H3 & H4).
      exists (cs' ++ cs). rewrite H1, H3, <- app_assoc, filter_app, H2, H4. auto.
Qed.

End Avoid.

Lemma main_loop_entry (b : Backend) :
  init_ok b = true -> window_ok b = true ->
  main b =
  match main_loop (polls b) loop_entry with
  | Left_loop w => Returned 0 (emit glfwTerminate w)
  | Still_open w => Running w
  end.
Proof. intros H1 H2. unfold main. rewrite H1, H2. reflexivity. Qed.

(** X5: the value [main] returns: -1 when [glfwInit] or [glfwCreateWindow]
    fails, 0 when both succeed and some polled event is the quit press or a
    close request, and [main] does not return as long as none is. *)
Theorem X5_exit_status (b : Backend) :
  status (main b) =
  if init_ok b && window_ok b
  then if quiet (polls b) then None else Some 0
  else Some (-1).
Proof.
  destruct (init_ok b) eqn:Hi; [destruct (window_ok b) eqn:Hw|].
  - rewrite (main_loop_entry b Hi Hw). simpl.
    pose proof (is_left_spec (polls b) loop_entry) as H.
    change (should_close loop_entry) with false in H. simpl in H.
    destruct (main_loop (polls b) loop_entry); simpl in H |- *;
      destruct (quiet (polls b)); try discriminate; reflexivity.
  - unfold main. rewrite Hi, Hw. reflexivity.
  - unfold main. rewrite Hi. reflexivity.
Qed.

Lemma emit_calls (c : call) (w : World) : calls (emit c w) = calls w ++ [c].
Proof. destruct w; reflexivity. Qed.

(** X6: the first call of every run is [glfwInit]; of [glfwInit],
    [glfwCreateWindow] and [glfwTerminate], a run makes [glfwInit] once,
    [glfwCreateWindow] once if the initialisation succeeded, and
    [glfwTerminate] once, as its very last call, on every path that returns
    after a successful initialisation; after a failed initialisation
    [glfwTerminate] is not called. *)
Theorem X6_lifecycle_calls (b : Backend) :
  hd_error (calls (final_world (main b))) = Some glfwInit /\
  filter is_lifecycle (calls (final_world (main b))) =
    glfwInit ::
    (if init_ok b
     then glfwCreateWindow WIDTH HEIGHT "Simple 3D Game - Hello World" ::
          (if window_ok b && quiet (polls b) then [] else [glfwTerminate])
     else []) /\
  match main b with
  | Returned _ w =>
      last (calls w) glfwInit = if init_ok b then glfwTerminate else glfwInit
  | Running _ => True
  end.
Proof.
  destruct (init_ok b) eqn:Hi; [destruct (window_ok b) eqn:Hw|].
  - rewrite (main_loop_entry b Hi Hw).
    destruct (loop_avoid is_lifecycle eq_refl eq_refl eq_refl
                (fun _ _ => eq_refl) (polls b) loop_entry) as (cs & H1 & H2).
    pose proof (is_left_spec (polls b) loop_entry) as H.
    change (should_close loop_entry) with false in H. simpl in H.
    destruct (main_loop (polls b) loop_entry) as [w'|w'];
      cbn [is_left world_of final_world] in H, H1 |- *;
      destruct (quiet (polls b)); try discriminate.
    + rewrite emit_calls, H1, !filter_app, H2, last_last.
      split; [|split]; reflexivity.
    + rewrite H1, filter_app, H2. split; [|split]; [reflexivity|reflexivity|exact I].
  - unfold main. rewrite Hi, Hw. split; [|split]; reflexivity.
  - unfold main. rewrite Hi. split; [|split]; reflexivity.
Qed.

Lemma run_matrices_mode (cs : list call) :
  forall st : gl_matrices,
    filter is_mode_call cs = [] ->
    matrix_mode (run_matrices cs st) = matrix_mode st.
Proof.
  induction cs as [|c cs IH]; intros st H; [reflexivity|].
  simpl in H. destruct (is_mode_call c) eqn:E; [discriminate|].
  unfold run_matrices in *. cbn [fold_left]. rewrite (IH _ H).
  destruct c; try discriminate; simpl; unfold on_current;
    try reflexivity; destruct (matrix_mode st =? GL_MODELVIEW); reflexivity.
Qed.

(** X7: however long [main] has run and whatever the events were, the
    matrix mode at the head of the loop is [GL_MODELVIEW]: the loop never
    calls [glMatrixMode], so the matrix calls of every frame act on the
    model-view matrix and leave the projection alone. *)
Theorem X7_matrix_mode_stays_modelview (ps : list (list event)) :
  matrix_mode (run_matrices (calls (world_of (main_loop ps loop_entry))) gl_initial)
    = GL_MODELVIEW /\
  filter is_mode_call (calls (world_of (main_loop ps loop_entry)))
    = [glMatrixMode GL_PROJECTION; glMatrixMode GL_MODELVIEW].
Proof.
  destruct (loop_avoid is_mode_call eq_refl eq_refl eq_refl
              (fun _ _ => eq_refl) ps loop_entry) as (cs & H1 & H2).
  rewrite H1. split.
  - rewrite run_matrices_app, run_matrices_mode by assumption. reflexivity.
  - rewrite filter_app, H2. reflexivity.
Qed.

(** ** Runs in which nothing closes the window *)

Lemma dispatch_quiet_calls (w : World) (ev : event) :
  is_quit ev = false -> calls (dispatch w ev) = calls w.
Proof.
  destruct ev as [key sc action mods|]; simpl; [|discriminate].
  intros H. rewrite key_callback_spec, H. reflexivity.
Qed.

Lemma poll_quiet_calls (queue : list event) :
  forall w : World,
    existsb is_quit queue = false -> calls (fold_left dispatch queue w) = calls w.
Proof.
  induction queue as [|ev queue IH]; intros w H; [reflexivity|].
  simpl in H. apply orb_false_iff in H. destruct H as [H1 H2].
  cbn [fold_left]. rewrite (IH _ H2). apply dispatch_quiet_calls, H1.
Qed.

(** The log of such a run: one block of calls per poll, the same but for
    the two angles handed to [glRotatef]. *)
Lemma loop_quiet_trace (ps : list (list event)) :
  forall w : World,
    should_close w = false -> quiet ps = true ->
    exists w' angles,
      main_loop ps w = Still_open w' /\
      List.length angles = List.length ps /\
      calls w' = calls w ++ flat_map iteration_calls angles.
Proof.
  induction ps as [|queue ps IH]; intros w Hc Hq.
  - exists w, []. rewrite main_loop_nil, Hc. simpl. now rewrite app_nil_r.
  - simpl in Hq. apply andb_true_iff in Hq. destruct Hq as [Hq1 Hq2].
    apply negb_true_iff in Hq1.
    destruct (IH (iteration queue w)) as (w' & angles & H1 & H2 & H3);
      [rewrite (proj1 (iteration_state queue w)), Hc, Hq1; reflexivity | assumption |].
    exists w', ((angleX w, angleY w) :: angles).
    rewrite main_loop_cons, Hc. split; [assumption|]. split; [simpl; congruence|].
    rewrite H3, iteration_spec, poll_quiet_calls by assumption.
    cbn [calls flat_map]. rewrite <- app_assoc. reflexivity.
Qed.

Lemma clear_colors_iterations (angles : list (float32 * float32)) :
  clear_colors background (flat_map iteration_calls angles)
  = repeat background (List.length angles).
Proof.
  induction angles as [|a angles IH]; [reflexivity|].
  cbn [flat_map List.length repeat]. rewrite <- IH. reflexivity.
Qed.

(** X8: in a run of [main] that nothing closes, the first frame is cleared
    with the clear colour of a fresh context and every later frame with the
    background (0.1, 0.1, 0.15, 1): one clear per frame. *)
Theorem X8_clear_colors_of_a_run (ps : list (list event)) :
  quiet ps = true ->
  exists w',
    main_loop ps loop_entry = Still_open w' /\
    clear_colors initial_clear_color (calls w') =
    match ps with
    | [] => []
    | _ :: ps' => initial_clear_color :: repeat background (List.length ps')
    end.
Proof.
  intros Hq.
  destruct (loop_quiet_trace ps loop_entry eq_refl Hq) as (w' & angles & H1 & H2 & H3).
  exists w'. split; [assumption|]. rewrite H3.
  change (clear_colors initial_clear_color (calls loop_entry ++ flat_map iteration_calls angles))
    with (clear_colors initial_clear_color (flat_map iteration_calls angles)).
  destruct angles as [|a angles], ps as [|q ps']; try discriminate; [reflexivity|].
  cbn [flat_map].
  change (clear_colors initial_clear_color
            (iteration_calls a ++ flat_map iteration_calls angles))
    with (initial_clear_color
            :: clear_colors background (flat_map iteration_calls angles)).
  rewrite clear_colors_iterations. simpl in H2. congruence.
Qed.

Lemma X8_clear_colors_of_a_run_witness :
  exists w',
    main_loop [[right_repeat]; []; [KeyEvent 65 0 GLFW_PRESS 0]] loop_entry = Still_open w' /\
    clear_colors initial_clear_color (calls w') =
    initial_clear_color :: repeat background 2.
Proof.
  apply (X8_clear_colors_of_a_run [[right_repeat]; []; [KeyEvent 65 0 GLFW_PRESS 0]]).
  reflexivity.
Defined.

Lemma quads_iterations (c : rgb) (angles : list (float32 * float32)) :
  assemble c None [] (flat_map iteration_calls angles)
  = concat (repeat (quads drawCube_calls) (List.length angles)).
Proof.
  revert c. induction angles as [|a angles IH]; intros c; [reflexivity|].
  cbn [flat_map List.length repeat concat].
  rewrite <- (IH (zero, one, one)). reflexivity.
Qed.

(** X9: in a run of [main] that nothing closes, every frame draws the same
    six quadrilaterals, positions and colours: what is drawn does not depend
    on the angles or on the events, only the matrix it is drawn under. *)
Theorem X9_every_frame_draws_the_cube (ps : list (list event)) :
  quiet ps = true ->
  exists w',
    main_loop ps loop_entry = Still_open w' /\
    quads (calls w') = concat (repeat (quads drawCube_calls) (List.length ps)) /\
    List.length (quads (calls w')) = (6 * List.length ps)%nat.
Proof.
  intros Hq.
  destruct (loop_quiet_trace ps loop_entry eq_refl Hq) as (w' & angles & H1 & H2 & H3).
  exists w'. split; [assumption|].
  assert (E : quads (calls w')
              = concat (repeat (quads drawCube_calls) (List.length ps))).
  { rewrite H3, <- H2, <- (quads_iterations initial_color). reflexivity. }
  split; [exact E|]. rewrite E. clear.
  induction (List.length ps) as [|n IH]; [reflexivity|].
  cbn [repeat concat]. rewrite length_app, IH.
  change (List.length (quads drawCube_calls)) with 6%nat. lia.
Qed.

Lemma X9_every_frame_draws_the_cube_witness :
  exists w',
    main_loop [[right_repeat]; []] loop_entry = Still_open w' /\
    quads (calls w') = concat (repeat (quads drawCube_calls) 2) /\
    List.length (quads (calls w')) = (6 * 2)%nat.
Proof.
  apply (X9_every_frame_draws_the_cube [[right_repeat]; []]). reflexivity.
Defined.

(** ** How many frames a run renders *)

(** X10: a run that starts with the window open renders one frame per poll
    up to and including the first poll that delivers a quit press or a
    close request, and none after it. *)
Theorem X10_frames_of_a_run (ps : list (list event)) (w : World) :
  should_close w = false ->
  frames_rendered (world_of (main_loop ps w))
  = (frames_rendered w + polls_until_quit ps)%nat.
Proof.
  revert w. induction ps as [|queue ps IH]; intros w Hc.
  - rewrite main_loop_nil, Hc. simpl. lia.
  - rewrite main_loop_cons, Hc. cbn [polls_until_quit].
    destruct (iteration_state queue w) as [I1 I2]. rewrite Hc in I1. simpl in I1.
    destruct (existsb is_quit queue) eqn:E.
    + rewrite (main_loop_closed _ _ I1). cbn [world_of].
      rewrite frames_rendered_emit, I2. simpl. lia.
    + rewrite (IH _ I1), I2. lia.
Qed.

Lemma X10_frames_of_a_run_witness :
  frames_rendered
    (world_of (main_loop [[]; [right_repeat; CloseRequest]; []; []] loop_entry))
  = (frames_rendered loop_entry
     + polls_until_quit [[]; [right_repeat; CloseRequest]; []; []])%nat.
Proof.
  apply (X10_frames_of_a_run [[]; [right_repeat; CloseRequest]; []; []] loop_entry).
  reflexivity.
Defined.

(** ** The picture after [n] frames *)

Lemma B2R_of_half (k : Z) :
  Z.abs k <= 2 ^ 24 -> B2R (of_half k) = (IZR k / 2)%R.
Proof.
  intros Hb. unfold B2R.
  destruct (Z.eq_dec k 0) as [->|Nk].
  - simpl. lra.
  - destruct (of_half_spec k Nk Hb) as (_ & _ & ->).
    replace (2 ^ 149) with (2 * 2 ^ 148) by reflexivity.
    rewrite !mult_IZR. field. apply not_0_IZR. discriminate.
Qed.

Lemma frame_calls_matrices (ax ay : float32) (st : gl_matrices) :
  run_matrices (frame_calls ax ay) st = run_matrices (view_calls ax ay) st.
Proof.
  unfold frame_calls. rewrite !run_matrices_app.
  rewrite (run_matrices_other [_; _]) by reflexivity.
  rewrite (run_matrices_other drawCube_calls) by reflexivity.
  apply run_matrices_other. reflexivity.
Qed.

Lemma mat_mul_congr_l (A B C : mat) :
  mat_eq A B -> mat_eq (mat_mul A C) (mat_mul B C).
Proof. intros H i j. unfold mat_mul. rewrite !H. reflexivity. Qed.

(** X11: from pitch 0 and yaw 0, the frame that follows [n] iterations
    without key input, for [n] up to 2^24, makes the calls of [frame_calls]
    at the angles reached, and after the whole log up to and including this
    frame the model-view matrix is the translation by (0, 0, -3) times the
    rotation by [n / 2] degrees about the y axis: the cube turns in place
    by half a degree per frame.  [st] is the matrix state before the first
    call of the log. *)
Theorem X11_view_after_idle_frames (n : nat) (w : World) (st : gl_matrices) :
  angleX w = zero -> angleY w = zero -> should_close w = false ->
  Z.of_nat n <= 2 ^ 24 ->
  matrix_mode (run_matrices (calls w) st) = GL_MODELVIEW ->
  exists w',
    main_loop (repeat [] n) w = Still_open w' /\
    calls (frame w') = calls w' ++ frame_calls (angleX w') (angleY w') /\
    mat_eq (modelview (run_matrices (calls (frame w')) st))
      (mat_mul (translation 0 0 (-3)) (rotation (IZR (Z.of_nat n) / 2) 0 1 0)).
Proof.
  intros Hx Hy Hc Hn Hm.
  destruct (idle_angleY n w 0 Hc Hy) as (w' & H1 & _ & H3); [lia|].
  destruct (idle_angleX n w Hc) as (w'' & H1' & H4).
  rewrite H1 in H1'. injection H1' as <-.
  destruct (loop_avoid is_mode_call eq_refl eq_refl eq_refl
              (fun _ _ => eq_refl) (repeat [] n) w) as (cs & Hcs & Hnone).
  rewrite H1 in Hcs. cbn [world_of] in Hcs.
  assert (Hm' : matrix_mode (run_matrices (calls w') st) = GL_MODELVIEW).
  { rewrite Hcs, run_matrices_app, run_matrices_mode; assumption. }
  assert (Hf : calls (frame w') = calls w' ++ frame_calls (angleX w') (angleY w')).
  { rewrite frame_spec. reflexivity. }
  exists w'. split; [exact H1|]. split; [exact Hf|].
  rewrite Hf, run_matrices_app.
  rewrite frame_calls_matrices, view_calls_matrix by assumption. cbn [modelview].
  rewrite H4, Hx, H3, B2R_zero, B2R_one, B2R_neg_three, B2R_of_half by lia.
  replace (0 + Z.of_nat n) with (Z.of_nat n) by lia.
  apply mat_mul_congr_l.
  eapply mat_eq_trans; [apply mat_mul_id_r, rotation_0|].
  apply mat_mul_id_l.
Qed.

Lemma X11_view_after_idle_frames_witness :
  exists w',
    main_loop (repeat [] 90) loop_entry = Still_open w' /\
    calls (frame w') = calls w' ++ frame_calls (angleX w') (angleY w') /\
    mat_eq (modelview (run_matrices (calls (frame w')) gl_initial))
      (mat_mul (translation 0 0 (-3)) (rotation (IZR (Z.of_nat 90) / 2) 0 1 0)).
Proof.
  apply (X11_view_after_idle_frames 90 loop_entry gl_initial); try reflexivity.
  vm_compute. discriminate.
Defined.

(** ** The mesh *)

(** X12: one call of [drawCube] makes the calls of [drawCube_calls]; each of
    the six faces these calls draw is a square of side 1 whose vertices run
    counter-clockwise as seen from outside the cube, so the six faces have
    one consistent, outward orientation; and each of the eight corners of
    the cube is a vertex of exactly three faces. *)
Theorem X12_cube_winding_and_corners (w : World) :
  calls (drawCube w) = calls w ++ drawCube_calls /\
  quads (calls (drawCube world0)) = quads drawCube_calls /\
  all2 (fun f q => wound_about (outward f) q) face_order (quads drawCube_calls) = true /\
  forallb (fun p => (occurrences p (concat (quads drawCube_calls)) =? 3)%nat) corners
    = true /\
  distinct_points corners = true.
Proof.
  split.
  - unfold drawCube. rewrite emit_all_spec. reflexivity.
  - repeat split; vm_compute; reflexivity.
Qed.
